(** * tidy_inbox: grouping, ranking and query generation

    A shallow embedding of [src/tidy_inbox.py]: the header decoder
    ([decode_email_header]), the grouper ([group_emails]), the ranker
    ([sort_groups]) and the query/URL generation of [main].

    Conventions.
    - A Python [str] is a [string] holding the UTF-8 bytes of the text; every
      comparison the program makes is against ASCII literals, for which the
      byte view and the code-point view agree.
    - A Python [int] that only counts is a [nat].
    - An aware UTC [datetime] is an [N]: microseconds since
      [datetime.min] (0001-01-01T00:00:00+00:00), so that [datetime.min] is 0.
    - A [dict] whose iteration order is observable (the groups) is an
      association list in insertion order.
    - Code that can raise returns a [result]; console warnings are collected
      in a log that is threaded through the grouper.
    - [console.print] is taken to succeed.  The texts it is given are rich
      markup with header values, the query or the criterion spliced in, and
      rich raises [MarkupError] for a text with a closing tag that matches
      no opening tag; such a failure is outside the model.  What is proved
      of a run that returns is proved of the runs in which every print
      succeeded. *)

From Stdlib Require Import List String Ascii Bool Arith NArith Lia.
From Stdlib Require Import Permutation Sorted.
From Stdlib Require Import ZArith.
Import ListNotations.
Local Open Scope list_scope.
Local Open Scope string_scope.

(* ------------------------------------------------------------------ *)
(** ** Exceptions and results *)

Inductive exn : Type :=
| TypeError
| AttributeError
| LookupError
| UnicodeDecodeError
| HeaderParseError
| ParserError.

Inductive result (A : Type) : Type :=
| Ok (a : A)
| Raise (e : exn).
Arguments Ok {A} a.
Arguments Raise {A} e.

Definition bind {A B : Type} (r : result A) (k : A -> result B) : result B :=
  match r with
  | Ok a => k a
  | Raise e => Raise e
  end.

Notation "x <- c1 ;; c2" := (bind c1 (fun x => c2))
  (at level 61, c1 at next level, right associativity).

(** A [for] loop whose body can raise. *)
Fixpoint for_each {S X : Type} (body : S -> X -> result S) (xs : list X) (s : S)
  : result S :=
  match xs with
  | [] => Ok s
  | x :: rest => s' <- body s x ;; for_each body rest s'
  end.

(* ------------------------------------------------------------------ *)
(** ** Strings *)

(** Truthiness of a [str]: empty is false. *)
Definition truthy (s : string) : bool :=
  match s with
  | EmptyString => false
  | String _ _ => true
  end.

(** Truthiness of a value that is a [str] or [None]. *)
Definition truthy_opt (o : option string) : bool :=
  match o with
  | None => false
  | Some s => truthy s
  end.

Definition is_upper (c : ascii) : bool :=
  let n := nat_of_ascii c in ((65 <=? n) && (n <=? 90))%nat.

Definition lower_char (c : ascii) : ascii :=
  if is_upper c then ascii_of_nat (nat_of_ascii c + 32) else c.

(** [str.lower()] on the ASCII range. *)
Fixpoint lower (s : string) : string :=
  match s with
  | EmptyString => EmptyString
  | String c r => String (lower_char c) (lower r)
  end.

Fixpoint contains_char (c : ascii) (s : string) : bool :=
  match s with
  | EmptyString => false
  | String d r => Ascii.eqb c d || contains_char c r
  end.

(** [s.replace(a, b)] for single characters. *)
Fixpoint replace_char (a b : ascii) (s : string) : string :=
  match s with
  | EmptyString => EmptyString
  | String c r => String (if Ascii.eqb c a then b else c) (replace_char a b r)
  end.

(** [sep.join(parts)]. *)
Fixpoint join (sep : string) (parts : list string) : string :=
  match parts with
  | [] => ""
  | [p] => p
  | p :: rest => p ++ sep ++ join sep rest
  end.

(* ------------------------------------------------------------------ *)
(** ** urllib.parse: quote, quote_plus and their decoders *)

Module Urllib.

(** [_ALWAYS_SAFE]: ASCII letters, digits and [_.-~]. *)
Definition always_safe (c : ascii) : bool :=
  let n := nat_of_ascii c in
  (((65 <=? n) && (n <=? 90)) || ((97 <=? n) && (n <=? 122))
   || ((48 <=? n) && (n <=? 57))
   || (n =? 95) || (n =? 46) || (n =? 45) || (n =? 126))%nat.

Definition hex_digit (n : nat) : ascii :=
  if (n <? 10)%nat then ascii_of_nat (48 + n) else ascii_of_nat (55 + n).

(** ['%{:02X}'.format(b)] *)
Definition percent (c : ascii) : string :=
  let n := nat_of_ascii c in
  String "%" (String (hex_digit (n / 16)) (String (hex_digit (n mod 16)) "")).

(** The per-byte quoter of [quote_from_bytes]. *)
Definition quoter (safe : string) (c : ascii) : string :=
  if always_safe c || contains_char c safe then String c "" else percent c.

Fixpoint quote (s : string) (safe : string) : string :=
  match s with
  | EmptyString => EmptyString
  | String c r => quoter safe c ++ quote r safe
  end.

(** [quote_plus(string)] with its default [safe='']. *)
Definition quote_plus (s : string) : string :=
  if negb (contains_char " " s) then quote s ""
  else replace_char " " "+" (quote s " ").

Definition hex_value (c : ascii) : option nat :=
  let n := nat_of_ascii c in
  if ((48 <=? n) && (n <=? 57))%nat then Some (n - 48)
  else if ((65 <=? n) && (n <=? 70))%nat then Some (n - 55)
  else if ((97 <=? n) && (n <=? 102))%nat then Some (n - 87)
  else None.

(** [unquote]: a ['%'] followed by two hex digits is one byte, any other
    character stands for itself. *)
Fixpoint unquote (s : string) : string :=
  match s with
  | EmptyString => EmptyString
  | String c r =>
      if Ascii.eqb c "%" then
        match r with
        | String h (String l r') =>
            match hex_value h, hex_value l with
            | Some a, Some b => String (ascii_of_nat (16 * a + b)) (unquote r')
            | _, _ => String c (unquote r)
            end
        | _ => String c (unquote r)
        end
      else String c (unquote r)
  end.

(** [unquote_plus(string)]: [unquote(string.replace('+', ' '))]. *)
Definition unquote_plus (s : string) : string :=
  unquote (replace_char "+" " " s).

End Urllib.

(* ------------------------------------------------------------------ *)
(** ** Query generation ([generate_filter_query] and the loop of [main]) *)

Definition generate_filter_query (sender_email : string) : string :=
  "from:(" ++ sender_email ++ ")".

(** [f"{args.query} {filter_query}"] *)
Definition full_filter_string (query sender_email : string) : string :=
  query ++ " " ++ generate_filter_query sender_email.

Definition encoded_query (query sender_email : string) : string :=
  Urllib.quote_plus (full_filter_string query sender_email).

Definition search_url (query sender_email : string) : string :=
  "https://mail.google.com/mail/u/0/#search/" ++ encoded_query query sender_email.

(* ------------------------------------------------------------------ *)
(** ** Library functions the grouper calls

    [email.header.decode_header], [bytes.decode], [email.utils.parseaddr]
    and [dateutil.parser.parse(..).astimezone(timezone.utc)] are taken as
    they are: any behaviour of theirs is allowed. *)

(** The first component of a pair returned by [decode_header]: the header
    itself (a [str]) when it has no encoded word, [bytes] otherwise. *)
Inductive chunk : Type :=
| Str (s : string)
| Bytes (b : string).

Record Lib : Type := {
  decode_header : string -> result (list (chunk * option string));
  bytes_decode : string -> string -> result string;
  parseaddr : string -> string * string;
  date_parse_utc : string -> result N
}.

(* ------------------------------------------------------------------ *)
(** ** Data model *)

(** One entry of [payload.headers]; a key can be missing. *)
Record header : Type := {
  name : option string;
  value : option string
}.

Record payload_t : Type := {
  headers : option (list header)
}.

Record message : Type := {
  id : option string;
  payload : option payload_t
}.

(** The values of the [defaultdict]. *)
Record group : Type := {
  count : nat;
  ids : list (option string);
  latest_date : option N;
  subject : option string;
  sender_display : option string;
  has_list_unsubscribe : bool
}.

(** [lambda: {'count': 0, 'ids': [], 'latest_date': None, ...}] *)
Definition default_group : group :=
  {| count := 0; ids := []; latest_date := None; subject := None;
     sender_display := None; has_list_unsubscribe := false |}.

(** The mapping, in insertion order. *)
Definition groups_t : Type := list (string * group).

Fixpoint lookup (k : string) (g : groups_t) : option group :=
  match g with
  | [] => None
  | (k', d) :: rest => if String.eqb k k' then Some d else lookup k rest
  end.

(** [groups[k] = f(groups[k])] on a [defaultdict]: an existing entry keeps its
    place, a new one is created from the default at the end. *)
Fixpoint update (k : string) (f : group -> group) (g : groups_t) : groups_t :=
  match g with
  | [] => [(k, f default_group)]
  | (k', d) :: rest =>
      if String.eqb k k' then (k', f d) :: rest else (k', d) :: update k f rest
  end.

(** The per-message local variables of the loop body. *)
Record locals : Type := {
  sender : string;
  sender_email : option string;
  msg_subject : string;
  date_str : option string;
  msg_has_list_unsubscribe : bool
}.

Definition initial_locals : locals :=
  {| sender := "Unknown Sender"; sender_email := None;
     msg_subject := "No Subject"; date_str := None;
     msg_has_list_unsubscribe := false |}.

(** Console warnings of the grouper. *)
Inductive warning : Type :=
| NoSenderEmail (sender : string)
| DateParseFailed (date_str sender_email : string) (e : exn).

(* ------------------------------------------------------------------ *)
(** ** The regular expression [<(.*?)>] *)

Definition newline : ascii := ascii_of_nat 10.

(** [(.*?)>] anchored at the start: the text before the first ['>'], if no
    newline comes before it. *)
Fixpoint lazy_until_gt (s : string) : option string :=
  match s with
  | EmptyString => None
  | String c r =>
      if Ascii.eqb c ">" then Some ""
      else if Ascii.eqb c newline then None
      else option_map (String c) (lazy_until_gt r)
  end.

(** [sender_email_pattern.search(s)], giving [match.group(1)]. *)
Fixpoint sender_email_pattern_search (s : string) : option string :=
  match s with
  | EmptyString => None
  | String c r =>
      if Ascii.eqb c "<" then
        match lazy_until_gt r with
        | Some g => Some g
        | None => sender_email_pattern_search r
        end
      else sender_email_pattern_search r
  end.

(* ------------------------------------------------------------------ *)
(** ** The grouper *)

Section Grouper.

Variable lib : Lib.

(** One iteration of the loop of [decode_email_header]. *)
Definition decode_part (part : chunk * option string) : result chunk :=
  match snd part with
  | Some charset =>
      match fst part with
      | Bytes b => s <- bytes_decode lib b charset ;; Ok (Str s)
      | Str _ => Raise AttributeError
      end
  | None => Ok (fst part)
  end.

Fixpoint decode_parts (parts : list (chunk * option string))
  : result (list chunk) :=
  match parts with
  | [] => Ok []
  | p :: rest =>
      d <- decode_part p ;; ds <- decode_parts rest ;; Ok (d :: ds)
  end.

(** The argument check of [' '.join]: every item must be a [str]. *)
Fixpoint all_str (parts : list chunk) : result (list string) :=
  match parts with
  | [] => Ok []
  | Str s :: rest => ss <- all_str rest ;; Ok (s :: ss)
  | Bytes _ :: _ => Raise TypeError
  end.

(** [decode_email_header(header)]; the argument is [header.get('value')],
    which is [None] when the key is missing. *)
Definition decode_email_header (header : option string) : result string :=
  match header with
  | None => Raise TypeError
  | Some h =>
      decoded_header <- decode_header lib h ;;
      decoded_parts <- decode_parts decoded_header ;;
      strs <- all_str decoded_parts ;;
      Ok (join " " strs)
  end.

(** Lines 178-183: the address of a decoded From value. *)
Definition extract_email (sender : string) : string :=
  let addr := parseaddr lib sender in
  if truthy (snd addr) then snd addr
  else match sender_email_pattern_search sender with
       | Some g => g
       | None => sender
       end.

(** The body of [for header in headers]. *)
Definition header_step (st : locals) (h : header) : result locals :=
  match name h with
  | None => Raise AttributeError
  | Some n =>
      let name := lower n in
      let value := value h in
      if String.eqb name "from" then
        sender <- decode_email_header value ;;
        Ok {| sender := sender; sender_email := Some (extract_email sender);
              msg_subject := msg_subject st; date_str := date_str st;
              msg_has_list_unsubscribe := msg_has_list_unsubscribe st |}
      else if String.eqb name "subject" then
        subject <- decode_email_header value ;;
        Ok {| sender := sender st; sender_email := sender_email st;
              msg_subject := subject; date_str := date_str st;
              msg_has_list_unsubscribe := msg_has_list_unsubscribe st |}
      else if String.eqb name "date" then
        Ok {| sender := sender st; sender_email := sender_email st;
              msg_subject := msg_subject st; date_str := value;
              msg_has_list_unsubscribe := msg_has_list_unsubscribe st |}
      else if String.eqb name "list-unsubscribe" then
        Ok {| sender := sender st; sender_email := sender_email st;
              msg_subject := msg_subject st; date_str := date_str st;
              msg_has_list_unsubscribe := true |}
      else Ok st
  end.

(** [msg.get('payload', {}).get('headers', [])] *)
Definition headers_of (msg : message) : list header :=
  match payload msg with
  | None => []
  | Some p => match headers p with
              | None => []
              | Some hs => hs
              end
  end.

(** Lines 166-189: the locals after the header loop. *)
Definition read_headers (msg : message) : result locals :=
  for_each header_step (headers_of msg) initial_locals.

(** Lines 197-199. *)
Definition count_message (msg : message) (unsub : bool) (g : group) : group :=
  {| count := count g + 1;
     ids := (ids g ++ [id msg])%list;
     latest_date := latest_date g;
     subject := subject g;
     sender_display := sender_display g;
     has_list_unsubscribe := has_list_unsubscribe g || unsub |}.

(** Lines 206-209. *)
Definition note_date (msg_date : N) (subj sndr : string) (g : group) : group :=
  let newer :=
    match latest_date g with
    | None => true
    | Some d => N.ltb d msg_date
    end in
  if newer then
    {| count := count g; ids := ids g;
       latest_date := Some msg_date;
       subject := Some subj;
       sender_display := Some sndr;
       has_list_unsubscribe := has_list_unsubscribe g |}
  else g.

(** Lines 191-211 for a message whose headers were read. *)
Definition attribute (st : groups_t * list warning) (msg : message) (l : locals)
  : groups_t * list warning :=
  let '(groups, log) := st in
  match sender_email l with
  | Some key =>
      if truthy key then
        let groups1 :=
          update key (count_message msg (msg_has_list_unsubscribe l)) groups in
        match date_str l with
        | Some ds =>
            if truthy ds then
              match date_parse_utc lib ds with
              | Ok msg_date =>
                  (update key (note_date msg_date (msg_subject l) (sender l))
                     groups1, log)
              | Raise e =>
                  (groups1, (log ++ [DateParseFailed ds key e])%list)
              end
            else (groups1, log)
        | None => (groups1, log)
        end
      else (groups, (log ++ [NoSenderEmail (sender l)])%list)
  | None => (groups, (log ++ [NoSenderEmail (sender l)])%list)
  end.

(** The body of [for msg in messages]. *)
Definition process_message (st : groups_t * list warning) (msg : message)
  : result (groups_t * list warning) :=
  l <- read_headers msg ;; Ok (attribute st msg l).

(** Lines 158-213: the loop, from an empty mapping. *)
Definition group_all (messages : list message)
  : result (groups_t * list warning) :=
  for_each process_message messages ([], []).

Definition retained (data : group) : bool :=
  has_list_unsubscribe data || (1 <? count data)%nat.

(** Lines 218-221. *)
Definition filter_groups (groups : groups_t) : groups_t :=
  filter (fun item => retained (snd item)) groups.

Definition group_emails (messages : list message)
  : result (groups_t * list warning) :=
  st <- group_all messages ;;
  Ok (filter_groups (fst st), snd st).

End Grouper.

(* ------------------------------------------------------------------ *)
(** ** The ranker *)

(** [sorted(iterable, key=.., reverse=..)]: a stable sort; with
    [reverse=True] the list is reversed, sorted, and reversed again, which
    keeps equal keys in their original order. *)
Section Sorted.

Context {A K : Type}.
Variable ltb : K -> K -> bool.
Variable key : A -> K.

Fixpoint insert_stable (x : A) (l : list A) : list A :=
  match l with
  | [] => [x]
  | y :: rest =>
      if ltb (key y) (key x) then y :: insert_stable x rest
      else x :: y :: rest
  end.

Fixpoint sort_stable (l : list A) : list A :=
  match l with
  | [] => []
  | x :: rest => insert_stable x (sort_stable rest)
  end.

Definition sorted (l : list A) (reverse : bool) : list A :=
  if reverse then rev (sort_stable (rev l)) else sort_stable l.

(** [x] may stand before [y] in ascending order. *)
Definition not_after (x y : A) : Prop := ltb (key y) (key x) = false.

End Sorted.

(** [datetime.min.replace(tzinfo=timezone.utc)] *)
Definition datetime_min : N := 0%N.

(** [d or datetime.min.replace(tzinfo=timezone.utc)]: a [datetime] is always
    true. *)
Definition or_min (d : option N) : N :=
  match d with
  | Some x => x
  | None => datetime_min
  end.

(** Comparison of the key tuples. *)
Definition count_date_ltb (a b : nat * N) : bool :=
  (fst a <? fst b)%nat || ((fst a =? fst b)%nat && N.ltb (snd a) (snd b)).

Definition date_count_ltb (a b : N * nat) : bool :=
  N.ltb (fst a) (fst b) || (N.eqb (fst a) (fst b) && (snd a <? snd b)%nat).

Definition count_key (item : string * group) : nat * N :=
  (count (snd item), or_min (latest_date (snd item))).

Definition date_key (item : string * group) : N * nat :=
  (or_min (latest_date (snd item)), count (snd item)).

Inductive sort_warning : Type :=
| InvalidCriteria (criteria : string).

(** [sort_groups(groups, criteria)], with the warning it prints. *)
Definition sort_groups (groups : groups_t) (criteria : string)
  : list (string * group) * list sort_warning :=
  if String.eqb criteria "count" then
    (sorted count_date_ltb count_key groups true, [])
  else if String.eqb criteria "date" then
    (sorted date_count_ltb date_key groups true, [])
  else
    (sorted count_date_ltb count_key groups true, [InvalidCriteria criteria]).

(** Descending order on (count, latest date), an absent date being
    [datetime_min]. *)
Definition count_then_date (a b : string * group) : Prop :=
  (count (snd b) < count (snd a))%nat \/
  (count (snd b) = count (snd a) /\
   (or_min (latest_date (snd b)) <= or_min (latest_date (snd a)))%N).

(** Descending order on (latest date, count). *)
Definition date_then_count (a b : string * group) : Prop :=
  (or_min (latest_date (snd b)) < or_min (latest_date (snd a)))%N \/
  (or_min (latest_date (snd b)) = or_min (latest_date (snd a)) /\
   (count (snd b) <= count (snd a))%nat).

(* ------------------------------------------------------------------ *)
(** ** Sample data

    [sample_lib] gives what the four library functions return in CPython on
    the header values that occur in the examples below; on other arguments
    its values are arbitrary.  It is used only to evaluate the program on
    those examples; the theorems hold for every [Lib]. *)

(** Midnight UTC of the day with proleptic Gregorian ordinal [ordinal]
    ([date.toordinal()]), in microseconds since [datetime.min]. *)
Definition utc_midnight (ordinal : N) : N :=
  ((ordinal - 1) * 86400 * 1000000)%N.

Definition jan_1_2024 : N := utc_midnight 738886.
Definition feb_1_2024 : N := utc_midnight 738917.
Definition mar_1_2024 : N := utc_midnight 738946.

Fixpoint has_encoded_word_start (s : string) : bool :=
  match s with
  | String "=" (String "?" _) => true
  | String _ r => has_encoded_word_start r
  | EmptyString => false
  end.

Definition sample_decode_header (h : string)
  : result (list (chunk * option string)) :=
  if negb (has_encoded_word_start h) then Ok [(Str h, None)]
  else if String.eqb h "=?x-unknown?q?abc?=" then
    Ok [(Bytes "abc", Some "x-unknown")]
  else Raise HeaderParseError.

Definition sample_bytes_decode (b charset : string) : result string :=
  if String.eqb charset "x-unknown" then Raise LookupError else Ok b.

Definition sample_parseaddr (s : string) : string * string :=
  if String.eqb s "a@x.com" then ("", "a@x.com")
  else if String.eqb s "A@x.com" then ("", "A@x.com")
  else if String.eqb s "b@y.org" then ("", "b@y.org")
  else if String.eqb s "Ann <ann@example.com>" then ("Ann", "ann@example.com")
  else ("", "").

Definition sample_date_parse_utc (s : string) : result N :=
  if String.eqb s "Mon, 01 Jan 2024 00:00:00 +0000" then Ok jan_1_2024
  else if String.eqb s "Thu, 01 Feb 2024 00:00:00 +0000" then Ok feb_1_2024
  else if String.eqb s "Fri, 01 Mar 2024 00:00:00 +0000" then Ok mar_1_2024
  else Raise ParserError.

Definition sample_lib : Lib :=
  {| decode_header := sample_decode_header;
     bytes_decode := sample_bytes_decode;
     parseaddr := sample_parseaddr;
     date_parse_utc := sample_date_parse_utc |}.

Definition hdr (n v : string) : header := {| name := Some n; value := Some v |}.

Definition mk_message (i : string) (hs : list header) : message :=
  {| id := Some i; payload := Some {| headers := Some hs |} |}.

Definition grp (c : nat) (d : N) : group :=
  {| count := c; ids := []; latest_date := Some d; subject := Some "s";
     sender_display := Some "n"; has_list_unsubscribe := true |}.

(** The encoding of one byte in [application/x-www-form-urlencoded] style:
    unreserved bytes stand for themselves, a space is a plus sign, any other
    byte is a percent triplet.  Used to describe what [quote_plus] computes. *)
Definition form_byte (c : ascii) : string :=
  if Urllib.always_safe c then String c ""
  else if Ascii.eqb c " " then "+"
  else Urllib.percent c.

Fixpoint form_encode (s : string) : string :=
  match s with
  | EmptyString => EmptyString
  | String c r => form_byte c ++ form_encode r
  end.

(** Five messages: two from one sender with dates, one whose date does not
    parse, one with a List-Unsubscribe header, one without a From header. *)
Definition ex_messages : list message :=
  [ mk_message "m1" [hdr "From" "a@x.com"; hdr "Subject" "one";
                     hdr "Date" "Mon, 01 Jan 2024 00:00:00 +0000"];
    mk_message "m2" [hdr "From" "a@x.com"; hdr "Subject" "two";
                     hdr "Date" "Thu, 01 Feb 2024 00:00:00 +0000"];
    mk_message "m3" [hdr "From" "b@y.org"; hdr "Date" "not a date"];
    mk_message "m4" [hdr "From" "Ann <ann@example.com>";
                     hdr "List-Unsubscribe" "<mailto:u@example.com>"];
    mk_message "m5" [hdr "Subject" "no sender"] ].

Definition ex_groups : groups_t :=
  [ ("a@x.com",
     {| count := 2; ids := [Some "m1"; Some "m2"];
        latest_date := Some feb_1_2024; subject := Some "two";
        sender_display := Some "a@x.com"; has_list_unsubscribe := false |});
    ("ann@example.com",
     {| count := 1; ids := [Some "m4"];
        latest_date := None; subject := None;
        sender_display := None; has_list_unsubscribe := true |}) ].

Definition ex_log : list warning :=
  [ DateParseFailed "not a date" "b@y.org" ParserError;
    NoSenderEmail "Unknown Sender" ].

(* ------------------------------------------------------------------ *)
(** ** Vocabulary of the statements about the grouper *)

Section Vocabulary.

Variable lib : Lib.

(** The key under which a message is counted: its extracted address, when
    that is a non-empty string (line 191). *)
Definition kept_key (l : locals) : option string :=
  match sender_email l with
  | Some k => if truthy k then Some k else None
  | None => None
  end.

(** The Date of a message as the grouper parses it (lines 202-205): an
    absent or empty value is not handed to the parser. *)
Definition parsed_date (l : locals) : option N :=
  match date_str l with
  | Some ds =>
      if truthy ds then
        match date_parse_utc lib ds with
        | Ok t => Some t
        | Raise _ => None
        end
      else None
  | None => None
  end.

Definition locals_of (m : message) : locals :=
  match read_headers lib m with
  | Ok l => l
  | Raise _ => initial_locals
  end.

Definition key_of (m : message) : option string :=
  match read_headers lib m with
  | Ok l => kept_key l
  | Raise _ => None
  end.

Definition has_key (k : string) (m : message) : bool :=
  match key_of m with
  | Some k' => String.eqb k k'
  | None => false
  end.

(** The messages counted under the key [k], in processing order. *)
Definition attributed_to (k : string) (messages : list message)
  : list message :=
  filter (has_key k) messages.

(** The messages that are not skipped at line 194. *)
Definition not_dropped (messages : list message) : list message :=
  filter (fun m => match key_of m with Some _ => true | None => false end)
    messages.

Definition group_or_default (og : option group) : group :=
  match og with
  | Some g => g
  | None => default_group
  end.

(** What one member message does to its group. *)
Definition group_step (m : message) (g : group) : group :=
  let l := locals_of m in
  let g1 := count_message m (msg_has_list_unsubscribe l) g in
  match parsed_date l with
  | Some t => note_date t (msg_subject l) (sender l) g1
  | None => g1
  end.

Definition absorb (members : list message) (g : group) : group :=
  fold_left (fun g m => group_step m g) members g.

(** The group of a non-empty list of member messages. *)
Definition summary (members : list message) : group :=
  absorb members default_group.

(** The entry of a key after [members] were counted under it. *)
Definition absorb_into (og : option group) (members : list message)
  : option group :=
  match members with
  | [] => og
  | _ => Some (absorb members (group_or_default og))
  end.

(** [sum(data['count'] for data in groups.values())] *)
Definition total_count (groups : groups_t) : nat :=
  fold_right (fun item n => count (snd item) + n) 0 groups.

(** The groups the filter removes. *)
Definition filtered_out (groups : groups_t) : groups_t :=
  filter (fun item => negb (retained (snd item))) groups.

(** The three latest-fields of [g] are unset and no member has a parsed
    date, or they are those of one member, whose parsed date is the
    greatest among the members. *)
Definition latest_in_sync (members : list message) (g : group) : Prop :=
  (latest_date g = None /\ subject g = None /\ sender_display g = None /\
   forall m, In m members -> parsed_date (locals_of m) = None)
  \/
  (exists m t,
      In m members /\
      parsed_date (locals_of m) = Some t /\
      latest_date g = Some t /\
      subject g = Some (msg_subject (locals_of m)) /\
      sender_display g = Some (sender (locals_of m)) /\
      forall m' t', In m' members ->
                    parsed_date (locals_of m') = Some t' -> (t' <= t)%N).

(** A header with the (lower-cased) name [n]. *)
Definition named (n : string) (h : header) : bool :=
  match name h with
  | Some x => String.eqb (lower x) n
  | None => false
  end.

(** The last header named [n]. *)
Fixpoint last_named (n : string) (hs : list header) : option header :=
  match hs with
  | [] => None
  | h :: rest =>
      match last_named n rest with
      | Some h' => Some h'
      | None => if named n h then Some h else None
      end
  end.

(** What the header loop leaves in the locals, started from [st]: for
    each of From, Subject and Date the last header of that name decides,
    and the unsubscribe flag is raised by any List-Unsubscribe header. *)
Definition last_wins (st : locals) (hs : list header) (l : locals) : Prop :=
  match last_named "from" hs with
  | Some h =>
      decode_email_header lib (value h) = Ok (sender l) /\
      sender_email l = Some (extract_email lib (sender l))
  | None => sender l = sender st /\ sender_email l = sender_email st
  end /\
  match last_named "subject" hs with
  | Some h => decode_email_header lib (value h) = Ok (msg_subject l)
  | None => msg_subject l = msg_subject st
  end /\
  date_str l =
    match last_named "date" hs with
    | Some h => value h
    | None => date_str st
    end /\
  msg_has_list_unsubscribe l =
    msg_has_list_unsubscribe st || existsb (named "list-unsubscribe") hs.

(** A header value has a segment that cannot be decoded: [decode_header]
    itself raises (malformed encoded word), or [bytes.decode] raises on one
    of the segments (unsupported charset or malformed bytes). *)
Definition decode_fails (v : string) : Prop :=
  (exists e, decode_header lib v = Raise e) \/
  (exists parts b cs e,
      decode_header lib v = Ok parts /\
      In (Bytes b, Some cs) parts /\
      bytes_decode lib b cs = Raise e).

End Vocabulary.

(* ------------------------------------------------------------------ *)
(** ** Further vocabulary: the characters of an encoded query *)

Fixpoint string_forall (p : ascii -> bool) (s : string) : bool :=
  match s with
  | EmptyString => true
  | String c r => p c && string_forall p r
  end.

(** A character that [quote_plus] can emit: unreserved, a percent sign or a
    plus sign. *)
Definition encoded_char (c : ascii) : bool :=
  Urllib.always_safe c || Ascii.eqb c "%" || Ascii.eqb c "+".

(* ------------------------------------------------------------------ *)
(** ** Further sample data: a header that mixes an encoded word and text

    For "=?utf-8?q?Ann?= <ann@example.com>" CPython's [decode_header]
    returns the decoded word with its charset and the rest as [bytes]
    without charset; on other arguments the values are arbitrary. *)

Definition mixed_decode_header (h : string)
  : result (list (chunk * option string)) :=
  if String.eqb h "=?utf-8?q?Ann?= <ann@example.com>" then
    Ok [(Bytes "Ann", Some "utf-8"); (Bytes " <ann@example.com>", None)]
  else Ok [(Str h, None)].

Definition mixed_lib : Lib :=
  {| decode_header := mixed_decode_header;
     bytes_decode := fun b _ => Ok b;
     parseaddr := sample_parseaddr;
     date_parse_utc := sample_date_parse_utc |}.

(* ------------------------------------------------------------------ *)
(** ** Further vocabulary: warnings and key order of the grouper *)

Section MoreVocabulary.

Variable lib : Lib.

(** The warning, if any, that one message adds to the log: line 192 for a
    dropped message, line 211 for a counted message whose non-empty Date
    value the parser rejects. *)
Definition message_warnings (m : message) : list warning :=
  let l := locals_of lib m in
  match kept_key l with
  | None => [NoSenderEmail (sender l)]
  | Some k =>
      match date_str l with
      | Some ds =>
          if truthy ds then
            match date_parse_utc lib ds with
            | Ok _ => []
            | Raise e => [DateParseFailed ds k e]
            end
          else []
      | None => []
      end
  end.

Definition is_no_sender (w : warning) : bool :=
  match w with
  | NoSenderEmail _ => true
  | DateParseFailed _ _ _ => false
  end.

(** The keys of the counted messages, one per message, in processing
    order. *)
Definition message_keys (messages : list message) : list string :=
  flat_map (fun m => match key_of lib m with
                     | Some k => [k]
                     | None => []
                     end) messages.

(** A message has a List-Unsubscribe header. *)
Definition has_unsubscribe_header (m : message) : bool :=
  existsb (named "list-unsubscribe") (headers_of m).

End MoreVocabulary.

(** Keeping the first occurrence of every key. *)
Definition add_key (seen : list string) (k : string) : list string :=
  if existsb (String.eqb k) seen then seen else (seen ++ [k])%list.

Definition first_occurrences (ks : list string) : list string :=
  fold_left add_key ks [].

(* ------------------------------------------------------------------ *)
(** ** Further vocabulary: the message a group follows *)

Section LatestVocabulary.

Variable lib : Lib.

(** [m], with parsed date [t], is the first of [members] that has the
    greatest parsed date: earlier members are strictly older, later ones
    are not newer. *)
Definition first_newest (members : list message) (m : message) (t : N) : Prop :=
  exists pre post,
    members = (pre ++ m :: post)%list /\
    parsed_date lib (locals_of lib m) = Some t /\
    (forall m' t', In m' pre ->
                   parsed_date lib (locals_of lib m') = Some t' -> (t' < t)%N) /\
    (forall m' t', In m' post ->
                   parsed_date lib (locals_of lib m') = Some t' -> (t' <= t)%N).

(** The latest-fields of [g] are those of the first newest member, or are
    unset when no member has a parsed date. *)
Definition follows_first_newest (members : list message) (g : group) : Prop :=
  match latest_date g with
  | None => forall m, In m members -> parsed_date lib (locals_of lib m) = None
  | Some t =>
      exists m,
        first_newest members m t /\
        subject g = Some (msg_subject (locals_of lib m)) /\
        sender_display g = Some (sender (locals_of lib m))
  end.

End LatestVocabulary.

(* ------------------------------------------------------------------ *)
(** ** Further vocabulary: ties of the ranker *)

(** An item whose two sort keys are [c] and [d]. *)
Definition has_keys (c : nat) (d : N) (item : string * group) : bool :=
  (count (snd item) =? c)%nat && N.eqb (or_min (latest_date (snd item))) d.

(* ------------------------------------------------------------------ *)
(** ** The display loop of [main] (lines 261-302)

    What [main] does with the fetched messages: group, rank, cut to the
    first [num_results] entries and build one panel per entry.  A panel is
    kept as the values that are formatted into it; the count is formatted in
    decimal and is kept as a number.  [strftime] stands for
    [datetime.strftime('%Y-%m-%d %H:%M %Z')].  Printing a panel, whose
    title splices the sender address into rich markup, is taken to
    succeed. *)

(** [l[:n]] for an [int] [n]: a negative [n] counts from the end. *)
Definition slice_to {A : Type} (n : Z) (l : list A) : list A :=
  if (0 <=? n)%Z then firstn (Z.to_nat n) l
  else firstn (Z.to_nat (Z.of_nat (List.length l) + n)) l.

(** [f"{x}"] for [x] a [str] or [None]. *)
Definition format_value (x : option string) : string :=
  match x with
  | Some s => s
  | None => "None"
  end.

Record panel : Type := {
  panel_number : nat;
  panel_sender_email : string;
  panel_sender : string;
  panel_filter : string;
  panel_link : string;
  panel_count : nat;
  panel_recent : string;
  panel_subject : string
}.

Inductive main_outcome : Type :=
| NoEmails
| NoNewsletters (log : list warning)
| Displayed (log : list warning) (sort_log : list sort_warning)
            (panels : list panel).

Section Main.

Variable lib : Lib.
Variable strftime : N -> string.

(** The body of the display loop for the entry at index [i].  The keys
    'sender_display' and 'subject' are present in every group, so the
    defaults given to [data.get] are not used. *)
Definition make_panel (query : string) (i : nat) (sender_email : string)
           (data : group) : panel :=
  {| panel_number := i + 1;
     panel_sender_email := sender_email;
     panel_sender := format_value (sender_display data);
     panel_filter := full_filter_string query sender_email;
     panel_link := search_url query sender_email;
     panel_count := count data;
     panel_recent :=
       match latest_date data with
       | Some d => strftime d
       | None => "N/A"
       end;
     panel_subject := format_value (subject data) |}.

(** [for i, (sender_email, data) in enumerate(..)], from index [i]. *)
Fixpoint panels_from (query : string) (i : nat) (items : list (string * group))
  : list panel :=
  match items with
  | [] => []
  | (sender_email, data) :: rest =>
      make_panel query i sender_email data :: panels_from query (S i) rest
  end.

(** Lines 262-302; [messages] is what [fetch_unread_emails] returned,
    [None] or a list. *)
Definition main_display (query sort : string) (num_results : Z)
           (messages : option (list message)) : result main_outcome :=
  match messages with
  | None => Ok NoEmails
  | Some [] => Ok NoEmails
  | Some msgs =>
      st <- group_emails lib msgs ;;
      match fst st with
      | [] => Ok (NoNewsletters (snd st))
      | newsletter_groups =>
          let sorted_newsletters := sort_groups newsletter_groups sort in
          Ok (Displayed (snd st) (snd sorted_newsletters)
                (panels_from query 0
                   (slice_to num_results (fst sorted_newsletters))))
      end
  end.

End Main.

(** A sample [strftime]: the dates of the examples, formatted as CPython
    does; other arguments are not used. *)
Definition sample_strftime (d : N) : string :=
  if N.eqb d jan_1_2024 then "2024-01-01 00:00 UTC"
  else if N.eqb d feb_1_2024 then "2024-02-01 00:00 UTC"
  else "2024-03-01 00:00 UTC".

(* ------------------------------------------------------------------ *)
(** ** [fetch_unread_emails] (lines 77-154)

    The Gmail service is taken as it is: [messages_list n r] is what the
    [n]-th call of [messages().list(..).execute()] returns for the request
    [r], [messages_get n i] what the call of [messages().get(..).execute()]
    for the [n]-th listed message returns for the id [i]; [None] stands for
    a raised exception.  Console and progress output is left out: the prints
    of lines 82, 117 and 149 splice the query, the message id and the
    exception text into rich markup and are taken to succeed. *)

(** An entry of [results['messages']]. *)
Record message_info : Type := {
  info_id : option string
}.

Record list_response : Type := {
  resp_messages : option (list message_info);
  resp_next_page_token : option string
}.

(** The arguments of one [list] call. *)
Record request : Type := {
  req_q : string;
  req_page_token : option string;
  req_max_results : Z
}.

Record Service : Type := {
  messages_list : nat -> request -> option list_response;
  messages_get : nat -> string -> option message
}.

Inductive list_outcome : Type :=
| Listed (all_messages : list message_info)
| ListFailed
| OutOfFuel.

Inductive fetch_outcome : Type :=
| Fetched (detailed_messages : list message)
| FetchedNone
| FetchKeyError
| FetchOutOfFuel.

Section Fetch.

Variable service : Service.
Variable query : string.
Variable max_results : Z.

(** The [while] loop of lines 94-119, with the requests it sends; [n]
    counts the calls made so far. *)
Fixpoint list_loop (fuel : nat) (n : nat) (all_messages : list message_info)
         (page_token : option string) (fetched_count : Z)
  : list_outcome * list request :=
  if (fetched_count <? max_results)%Z then
    match fuel with
    | O => (OutOfFuel, [])
    | S fuel' =>
        let r := {| req_q := query; req_page_token := page_token;
                    req_max_results := Z.min 100 (max_results - fetched_count) |} in
        match messages_list service n r with
        | None => (ListFailed, [r])
        | Some results =>
            let messages :=
              match resp_messages results with
              | Some ms => ms
              | None => []
              end in
            match messages with
            | [] => (Listed all_messages, [r])
            | _ :: _ =>
                let all_messages' := (all_messages ++ messages)%list in
                let fetched_count' :=
                  (fetched_count + Z.of_nat (List.length messages))%Z in
                let page_token' := resp_next_page_token results in
                if truthy_opt page_token' then
                  let rest := list_loop fuel' (S n) all_messages' page_token'
                                fetched_count' in
                  (fst rest, r :: snd rest)
                else (Listed all_messages', [r])
            end
        end
    end
  else (Listed all_messages, []).

(** The [for] loop of lines 139-151, from index [i]; [None] is the
    [KeyError] of [message_info['id']]. *)
Fixpoint fetch_details (i : nat) (infos : list message_info)
         (detailed_messages : list message) : option (list message) :=
  match infos with
  | [] => Some detailed_messages
  | message_info :: rest =>
      match info_id message_info with
      | None => None
      | Some msg_id =>
          match messages_get service i msg_id with
          | Some msg => fetch_details (S i) rest (detailed_messages ++ [msg])%list
          | None => fetch_details (S i) rest detailed_messages
          end
      end
  end.

Definition fetch_with_fuel (fuel : nat) : fetch_outcome * list request :=
  let listed := list_loop fuel 0 [] None 0%Z in
  (match fst listed with
   | OutOfFuel => FetchOutOfFuel
   | ListFailed => FetchedNone
   | Listed [] => Fetched []
   | Listed all_messages =>
       match fetch_details 0 all_messages [] with
       | Some detailed_messages => Fetched detailed_messages
       | None => FetchKeyError
       end
   end, snd listed).

(** [fetch_unread_emails(service, query, max_results)]: every turn of the
    loop that goes on fetches at least one message, so [max_results] turns
    are enough. *)
Definition fetch_unread_emails : fetch_outcome * list request :=
  fetch_with_fuel (Z.to_nat max_results).

End Fetch.

(** The answers of the detail calls that succeed, in listing order, the
    first listed entry having index [i]. *)
Fixpoint successful_details (service : Service) (i : nat)
         (infos : list message_info) : list message :=
  match infos with
  | [] => []
  | message_info :: rest =>
      (match info_id message_info with
       | Some msg_id =>
           match messages_get service i msg_id with
           | Some msg => [msg]
           | None => []
           end
       | None => []
       end ++ successful_details service (S i) rest)%list
  end.

(** A sample service: three ids on a first page with a token, one more on a
    second page; the details of the second id cannot be fetched. *)
Definition sample_service : Service :=
  {| messages_list := fun n r =>
       match n with
       | 0 => Some {| resp_messages :=
                        Some [{| info_id := Some "m1" |};
                              {| info_id := Some "m2" |};
                              {| info_id := Some "m3" |}];
                      resp_next_page_token := Some "p2" |}
       | 1 => Some {| resp_messages := Some [{| info_id := Some "m4" |}];
                      resp_next_page_token := None |}
       | _ => None
       end;
     messages_get := fun n i =>
       if String.eqb i "m2" then None
       else Some (mk_message i [hdr "From" "a@x.com"]) |}.

(** A service that returns at most as many ids as the request allows, and
    refuses a negative size. *)
Definition capped_service : Service :=
  {| messages_list := fun n r =>
       match n with
       | 0 =>
           if (req_max_results r <? 0)%Z then None
           else Some {| resp_messages :=
                          Some (firstn (Z.to_nat (req_max_results r))
                                  [{| info_id := Some "m1" |};
                                   {| info_id := Some "m2" |};
                                   {| info_id := Some "m3" |}]);
                        resp_next_page_token := None |}
       | _ => None
       end;
     messages_get := fun n i => Some (mk_message i [hdr "From" "a@x.com"]) |}.

(* ================================================================== *)
(** * Theorems *)

(** ** Query generation *)

Ltac each_byte c :=
  destruct c as [[] [] [] [] [] [] [] []].

Lemma replace_char_app (a b : ascii) (s t : string) :
  replace_char a b (s ++ t) = replace_char a b s ++ replace_char a b t.
Proof.
  induction s as [|c s IH]; simpl; [reflexivity | now rewrite IH].
Qed.

Lemma quoter_space_replaced (c : ascii) :
  replace_char " " "+" (Urllib.quoter " " c) = form_byte c.
Proof. each_byte c; reflexivity. Qed.

Lemma quoter_no_space (c : ascii) :
  Ascii.eqb " " c = false -> Urllib.quoter "" c = form_byte c.
Proof. each_byte c; intros H; try reflexivity; discriminate H. Qed.

Lemma quote_safe_space (s : string) :
  replace_char " " "+" (Urllib.quote s " ") = form_encode s.
Proof.
  induction s as [|c s IH]; simpl; [reflexivity|].
  now rewrite replace_char_app, quoter_space_replaced, IH.
Qed.

Lemma quote_without_space (s : string) :
  contains_char " " s = false -> Urllib.quote s "" = form_encode s.
Proof.
  induction s as [|c s IH]; simpl; [reflexivity|].
  intros H. apply orb_false_iff in H as [Hc Hs].
  now rewrite quoter_no_space, IH.
Qed.

Lemma quote_plus_form_encode (s : string) :
  Urllib.quote_plus s = form_encode s.
Proof.
  unfold Urllib.quote_plus.
  destruct (contains_char " " s) eqn:E; simpl.
  - apply quote_safe_space.
  - now apply quote_without_space.
Qed.

Lemma unquote_plus_form_byte (c : ascii) (r : string) :
  Urllib.unquote_plus (form_byte c ++ r) = String c (Urllib.unquote_plus r).
Proof. each_byte c; reflexivity. Qed.

Lemma unquote_plus_form_encode (s : string) :
  Urllib.unquote_plus (form_encode s) = s.
Proof.
  induction s as [|c s IH]; simpl; [reflexivity|].
  now rewrite unquote_plus_form_byte, IH.
Qed.

(** C2, as amended.  For every query [Q] and sender address [s], the full
    filter is [Q ++ " " ++ "from:(" ++ s ++ ")"]; the URL is the fixed
    template followed by the byte-wise form encoding of the full filter, in
    which a colon and the two parentheses are percent triplets and a space
    is a plus sign; and decoding the fragment with [unquote_plus] gives the
    full filter back. *)
Theorem C2_query_url_roundtrip (Q s : string) :
  full_filter_string Q s = Q ++ " " ++ "from:(" ++ s ++ ")" /\
  search_url Q s =
    "https://mail.google.com/mail/u/0/#search/"
      ++ form_encode (full_filter_string Q s) /\
  form_byte ":" = "%3A" /\ form_byte "(" = "%28" /\ form_byte ")" = "%29" /\
  form_byte " " = "+" /\
  Urllib.unquote_plus (encoded_query Q s) = full_filter_string Q s.
Proof.
  unfold search_url, encoded_query.
  rewrite quote_plus_form_encode, unquote_plus_form_encode.
  repeat split; reflexivity.
Qed.

(** C2 as stated fails for the query "is:unread" and the sender
    "foo@bar.com": the space of the full filter is not percent-encoded (the
    fragment is not the percent-encoding of the full filter, which has
    "%20" there), and percent-decoding the fragment leaves a plus sign where
    the full filter has its space. *)
Lemma C2_space_is_plus :
  full_filter_string "is:unread" "foo@bar.com" = "is:unread from:(foo@bar.com)" /\
  search_url "is:unread" "foo@bar.com" =
    "https://mail.google.com/mail/u/0/#search/is%3Aunread+from%3A%28foo%40bar.com%29" /\
  Urllib.quote (full_filter_string "is:unread" "foo@bar.com") "" =
    "is%3Aunread%20from%3A%28foo%40bar.com%29" /\
  encoded_query "is:unread" "foo@bar.com" <>
    Urllib.quote (full_filter_string "is:unread" "foo@bar.com") "" /\
  Urllib.unquote (encoded_query "is:unread" "foo@bar.com") =
    "is:unread+from:(foo@bar.com)" /\
  Urllib.unquote (encoded_query "is:unread" "foo@bar.com") <>
    full_filter_string "is:unread" "foo@bar.com".
Proof.
  repeat split; try reflexivity; vm_compute; discriminate.
Qed.

(** ** The ranker *)

Section SortedFacts.

Context {A K : Type}.
Variable ltb : K -> K -> bool.
Variable key : A -> K.

Hypothesis ltb_asym : forall a b, ltb a b = true -> ltb b a = false.
Hypothesis geb_trans :
  forall a b c, ltb b a = false -> ltb c b = false -> ltb c a = false.

Lemma insert_stable_perm (x : A) (l : list A) :
  Permutation (insert_stable ltb key x l) (x :: l).
Proof.
  induction l as [|y l IH]; simpl; [reflexivity|].
  destruct (ltb (key y) (key x)); [|reflexivity].
  rewrite IH. apply perm_swap.
Qed.

Lemma sort_stable_perm (l : list A) : Permutation (sort_stable ltb key l) l.
Proof.
  induction l as [|x l IH]; simpl; [reflexivity|].
  rewrite insert_stable_perm. now apply perm_skip.
Qed.

Lemma sorted_perm (l : list A) (reverse : bool) :
  Permutation (sorted ltb key l reverse) l.
Proof.
  unfold sorted. destruct reverse; [|apply sort_stable_perm].
  rewrite <- Permutation_rev, sort_stable_perm. symmetry. apply Permutation_rev.
Qed.

Lemma insert_stable_sorted (x : A) (l : list A) :
  StronglySorted (not_after ltb key) l ->
  StronglySorted (not_after ltb key) (insert_stable ltb key x l).
Proof.
  induction 1 as [|y l Hl IH Hy]; simpl.
  - constructor; constructor.
  - destruct (ltb (key y) (key x)) eqn:E.
    + constructor; [exact IH|].
      rewrite Forall_forall in *. intros z Hz.
      apply (Permutation_in _ (insert_stable_perm x l)) in Hz.
      destruct Hz as [<-|Hz]; [|now apply Hy].
      unfold not_after. now apply ltb_asym.
    + constructor; [now constructor|].
      constructor; [exact E|].
      rewrite Forall_forall in *. intros z Hz.
      unfold not_after in *. eapply geb_trans; [exact E | now apply Hy].
Qed.

Lemma sort_stable_sorted (l : list A) :
  StronglySorted (not_after ltb key) (sort_stable ltb key l).
Proof.
  induction l as [|x l IH]; simpl; [constructor|].
  now apply insert_stable_sorted.
Qed.

Lemma StronglySorted_app (R : A -> A -> Prop) (l1 l2 : list A) :
  StronglySorted R l1 -> StronglySorted R l2 ->
  (forall a b, In a l1 -> In b l2 -> R a b) ->
  StronglySorted R (l1 ++ l2)%list.
Proof.
  induction 1 as [|a l1 Hl1 IH Ha]; simpl; intros H2 Hx; [exact H2|].
  constructor.
  - apply IH; [exact H2|]. intros; apply Hx; [now right | assumption].
  - apply Forall_app. split; [exact Ha|].
    apply Forall_forall. intros b Hb. apply Hx; [now left | exact Hb].
Qed.

Lemma StronglySorted_rev (R : A -> A -> Prop) (l : list A) :
  StronglySorted R l -> StronglySorted (fun a b => R b a) (rev l).
Proof.
  induction 1 as [|a l Hl IH Ha]; simpl; [constructor|].
  apply StronglySorted_app; [exact IH | repeat constructor |].
  intros x y Hx [<-|[]]. apply in_rev in Hx.
  rewrite Forall_forall in Ha. now apply Ha.
Qed.

(** With [reverse=True] no element is followed by one with a greater key. *)
Lemma sorted_reverse_sorted (l : list A) :
  StronglySorted (fun a b => ltb (key a) (key b) = false)
    (sorted ltb key l true).
Proof.
  unfold sorted.
  apply (StronglySorted_rev (not_after ltb key)), sort_stable_sorted.
Qed.

End SortedFacts.

Lemma count_date_ltb_spec (a b : nat * N) :
  count_date_ltb a b = true <->
  (fst a < fst b)%nat \/ (fst a = fst b /\ (snd a < snd b)%N).
Proof.
  unfold count_date_ltb.
  rewrite orb_true_iff, andb_true_iff, Nat.ltb_lt, Nat.eqb_eq, N.ltb_lt.
  reflexivity.
Qed.

Lemma date_count_ltb_spec (a b : N * nat) :
  date_count_ltb a b = true <->
  (fst a < fst b)%N \/ (fst a = fst b /\ (snd a < snd b)%nat).
Proof.
  unfold date_count_ltb.
  rewrite orb_true_iff, andb_true_iff, Nat.ltb_lt, N.eqb_eq, N.ltb_lt.
  reflexivity.
Qed.

Lemma count_date_ltb_false (a b : nat * N) :
  count_date_ltb a b = false <->
  (fst b < fst a)%nat \/ (fst b = fst a /\ (snd b <= snd a)%N).
Proof.
  rewrite <- not_true_iff_false, count_date_ltb_spec. lia.
Qed.

Lemma date_count_ltb_false (a b : N * nat) :
  date_count_ltb a b = false <->
  (fst b < fst a)%N \/ (fst b = fst a /\ (snd b <= snd a)%nat).
Proof.
  rewrite <- not_true_iff_false, date_count_ltb_spec. lia.
Qed.

Lemma StronglySorted_impl {A : Type} (R S : A -> A -> Prop) (l : list A) :
  (forall a b, R a b -> S a b) -> StronglySorted R l -> StronglySorted S l.
Proof.
  intros HRS. induction 1 as [|a l Hl IH Ha]; constructor; [exact IH|].
  eapply Forall_impl; [|exact Ha]. intros b. apply HRS.
Qed.

Lemma sorted_by_count (groups : groups_t) :
  StronglySorted count_then_date (sorted count_date_ltb count_key groups true).
Proof.
  eapply StronglySorted_impl; [|apply sorted_reverse_sorted].
  - intros a b H. apply count_date_ltb_false in H. exact H.
  - intros a b H. apply count_date_ltb_spec in H.
    apply count_date_ltb_false. lia.
  - intros a b c H1 H2. apply count_date_ltb_false in H1, H2.
    apply count_date_ltb_false. lia.
Qed.

Lemma sorted_by_date (groups : groups_t) :
  StronglySorted date_then_count (sorted date_count_ltb date_key groups true).
Proof.
  eapply StronglySorted_impl; [|apply sorted_reverse_sorted].
  - intros a b H. apply date_count_ltb_false in H. exact H.
  - intros a b H. apply date_count_ltb_spec in H.
    apply date_count_ltb_false. lia.
  - intros a b c H1 H2. apply date_count_ltb_false in H1, H2.
    apply date_count_ltb_false. lia.
Qed.

(** C5.  For every mapping of sender groups, ranking by "count" returns the
    same entries ordered by count descending, ties by latest date
    descending, an absent latest date counting as [datetime_min], the least
    timestamp; ranking by "date" returns them ordered by latest date
    descending (absent as the least), ties by count descending.  For
    A(5, 2024-01-01), B(5, 2024-02-01), C(3, 2024-03-01) the two rankings are
    [B; A; C] and [C; B; A]. *)
Theorem C5_sort_groups_order :
  (forall groups : groups_t,
      Permutation (fst (sort_groups groups "count")) groups /\
      StronglySorted count_then_date (fst (sort_groups groups "count")) /\
      Permutation (fst (sort_groups groups "date")) groups /\
      StronglySorted date_then_count (fst (sort_groups groups "date"))) /\
  (forall d : N, (or_min None <= or_min (Some d))%N) /\
  map fst (fst (sort_groups
    [("A", grp 5 jan_1_2024); ("B", grp 5 feb_1_2024); ("C", grp 3 mar_1_2024)]
    "count")) = ["B"; "A"; "C"] /\
  map fst (fst (sort_groups
    [("A", grp 5 jan_1_2024); ("B", grp 5 feb_1_2024); ("C", grp 3 mar_1_2024)]
    "date")) = ["C"; "B"; "A"].
Proof.
  split; [|split; [|split]].
  - intros groups.
    change (fst (sort_groups groups "count"))
      with (sorted count_date_ltb count_key groups true).
    change (fst (sort_groups groups "date"))
      with (sorted date_count_ltb date_key groups true).
    repeat split.
    + apply sorted_perm.
    + apply sorted_by_count.
    + apply sorted_perm.
    + apply sorted_by_date.
  - intros d. unfold or_min, datetime_min. lia.
  - vm_compute. reflexivity.
  - vm_compute. reflexivity.
Qed.

(** ** The address pattern on sample strings *)

Example pattern_first_bracket :
  sender_email_pattern_search "Ann <<a@b> <c@d>" = Some "<a@b".
Proof. reflexivity. Qed.

Example pattern_empty_group : sender_email_pattern_search "<>" = Some "".
Proof. reflexivity. Qed.

Example pattern_no_bracket : sender_email_pattern_search "a@b > c" = None.
Proof. reflexivity. Qed.

(** ** The grouper: loops and the mapping *)


Lemma for_each_raises {S X : Type} (body : S -> X -> result S) (xs : list X) (x : X) :
  In x xs -> (forall s, exists e, body s x = Raise e) ->
  forall s, exists e, for_each body xs s = Raise e.
Proof.
  intros Hin Hx. induction xs as [|y xs IH]; [destruct Hin|].
  intros s. simpl. destruct Hin as [->|Hin].
  - destruct (Hx s) as [e ->]. now exists e.
  - destruct (body s y) as [s'|e]; simpl; [now apply IH | now exists e].
Qed.

Lemma lookup_update_same (k : string) (f : group -> group) (g : groups_t) :
  lookup k (update k f g) = Some (f (group_or_default (lookup k g))).
Proof.
  induction g as [|[k' d] g IH]; simpl.
  - now rewrite String.eqb_refl.
  - destruct (String.eqb k k') eqn:E; simpl; rewrite E; [reflexivity | exact IH].
Qed.

Lemma lookup_update_other (k k' : string) (f : group -> group) (g : groups_t) :
  k <> k' -> lookup k (update k' f g) = lookup k g.
Proof.
  intros Hne. induction g as [|[k2 d] g IH]; simpl.
  - apply String.eqb_neq in Hne. now rewrite Hne.
  - destruct (String.eqb k' k2) eqn:E; simpl.
    + apply String.eqb_eq in E. subst k2.
      apply String.eqb_neq in Hne. now rewrite Hne.
    + now rewrite IH.
Qed.

Lemma update_update (k : string) (f1 f2 : group -> group) (g : groups_t) :
  update k f2 (update k f1 g) = update k (fun d => f2 (f1 d)) g.
Proof.
  induction g as [|[k' d] g IH]; simpl.
  - now rewrite String.eqb_refl.
  - destruct (String.eqb k k') eqn:E; simpl; rewrite E; [reflexivity|].
    now rewrite IH.
Qed.

Lemma lookup_None_keys (k : string) (g : groups_t) :
  lookup k g = None <-> ~ In k (map fst g).
Proof.
  induction g as [|[k' d] g IH]; simpl; [tauto|].
  destruct (String.eqb k k') eqn:E.
  - apply String.eqb_eq in E. subst. split; [discriminate | tauto].
  - apply String.eqb_neq in E. rewrite IH. split; [|tauto].
    intros H [H1|H1]; [now subst | tauto].
Qed.

Lemma keys_update (k : string) (f : group -> group) (g : groups_t) :
  map fst (update k f g) =
  match lookup k g with
  | Some _ => map fst g
  | None => (map fst g ++ [k])%list
  end.
Proof.
  induction g as [|[k' d] g IH]; simpl; [reflexivity|].
  destruct (String.eqb k k') eqn:E; simpl; [reflexivity|].
  rewrite IH. now destruct (lookup k g).
Qed.

Lemma NoDup_keys_update (k : string) (f : group -> group) (g : groups_t) :
  NoDup (map fst g) -> NoDup (map fst (update k f g)).
Proof.
  intros H. rewrite keys_update.
  destruct (lookup k g) eqn:E; [exact H|].
  apply lookup_None_keys in E.
  apply NoDup_app; [exact H | repeat constructor; intros [] |].
  intros x Hx [<-|[]]. contradiction.
Qed.

Lemma lookup_of_In (k : string) (d : group) (g : groups_t) :
  NoDup (map fst g) -> In (k, d) g -> lookup k g = Some d.
Proof.
  induction g as [|[k' d'] g IH]; simpl; intros Hnd Hin; [destruct Hin|].
  inversion Hnd as [|? ? Hnotin Hnd']; subst.
  destruct Hin as [Heq|Hin].
  - inversion Heq; subst. now rewrite String.eqb_refl.
  - destruct (String.eqb k k') eqn:E; [|now apply IH].
    apply String.eqb_eq in E. subst k'.
    exfalso. apply Hnotin. apply (in_map fst) in Hin. exact Hin.
Qed.


Lemma total_count_update (k : string) (f : group -> group) (n : nat) (g : groups_t) :
  (forall d, count (f d) = count d + n) ->
  total_count (update k f g) = total_count g + n.
Proof.
  intros Hf. induction g as [|[k' d] g IH]; simpl.
  - rewrite Hf. simpl. lia.
  - destruct (String.eqb k k'); simpl; [rewrite Hf | rewrite IH]; lia.
Qed.

Lemma Forall_update (P : group -> Prop) (k : string) (f : group -> group) (g : groups_t) :
  (forall d, P (f d)) ->
  Forall (fun item => P (snd item)) g ->
  Forall (fun item => P (snd item)) (update k f g).
Proof.
  intros Hf. induction 1 as [|[k' d] g Hd Hg IH]; simpl.
  - constructor; [apply Hf | constructor].
  - destruct (String.eqb k k'); constructor; auto. apply Hf.
Qed.

Section GrouperFacts.

Variable lib : Lib.

Lemma locals_of_read (m : message) (l : locals) :
  read_headers lib m = Ok l -> locals_of lib m = l.
Proof. unfold locals_of. now intros ->. Qed.

Lemma key_of_read (m : message) (l : locals) :
  read_headers lib m = Ok l -> key_of lib m = kept_key l.
Proof. unfold key_of. now intros ->. Qed.

Lemma count_group_step (m : message) (g : group) :
  count (group_step lib m g) = count g + 1.
Proof.
  unfold group_step, note_date.
  destruct (parsed_date lib (locals_of lib m)); [|reflexivity].
  simpl. destruct (latest_date g) as [d|]; [destruct (N.ltb d n)|]; reflexivity.
Qed.

(** The mapping after lines 191-211, for a message whose headers were read. *)
Lemma attribute_groups (g : groups_t) (log : list warning) (m : message) (l : locals) :
  read_headers lib m = Ok l ->
  fst (attribute lib (g, log) m l) =
  match kept_key l with
  | Some k => update k (group_step lib m) g
  | None => g
  end.
Proof.
  intros Hread. unfold attribute, kept_key, group_step.
  rewrite (locals_of_read _ _ Hread). unfold parsed_date.
  destruct (sender_email l) as [k|]; [|reflexivity].
  destruct (truthy k); [|reflexivity].
  destruct (date_str l) as [ds|]; [|reflexivity].
  destruct (truthy ds); [|reflexivity].
  destruct (date_parse_utc lib ds) as [t|e]; [|reflexivity].
  simpl. apply update_update.
Qed.

(** One turn of the message loop that does not raise. *)
Lemma process_cons (m : message) (ms : list message) (g : groups_t)
      (log : list warning) (st' : groups_t * list warning) :
  for_each (process_message lib) (m :: ms) (g, log) = Ok st' ->
  exists l log1,
    read_headers lib m = Ok l /\
    key_of lib m = kept_key l /\
    for_each (process_message lib) ms
      (match kept_key l with
       | Some k => update k (group_step lib m) g
       | None => g
       end, log1) = Ok st'.
Proof.
  cbn [for_each]. unfold process_message at 1.
  destruct (read_headers lib m) as [l|e] eqn:Hread; cbn [bind];
    [|discriminate].
  intros Hrun. exists l, (snd (attribute lib (g, log) m l)).
  split; [reflexivity|]. split; [now apply key_of_read|].
  rewrite <- (attribute_groups g log m l Hread), <- surjective_pairing.
  exact Hrun.
Qed.

(** Every entry of the mapping is the fold of [group_step] over the
    messages with its key. *)
Lemma for_each_lookup (messages : list message) :
  forall g log g' log',
    for_each (process_message lib) messages (g, log) = Ok (g', log') ->
    forall k, lookup k g' = absorb_into lib (lookup k g) (attributed_to lib k messages).
Proof.
  induction messages as [|m ms IH]; intros g log g' log' Hrun k.
  - inversion Hrun; subst. reflexivity.
  - apply process_cons in Hrun as (l & log1 & Hread & Hkey & Hrun).
    specialize (IH _ _ _ _ Hrun k). rewrite IH.
    unfold attributed_to. cbn [filter]. unfold has_key at 2. rewrite Hkey.
    destruct (kept_key l) as [k0|]; [|reflexivity].
    destruct (String.eqb k k0) eqn:E.
    + apply String.eqb_eq in E. subst k0. rewrite lookup_update_same.
      unfold absorb_into, absorb. cbn [fold_left group_or_default].
      now destruct (filter (has_key lib k) ms).
    + apply String.eqb_neq in E. now rewrite lookup_update_other.
Qed.

Lemma group_all_lookup (messages : list message) (g : groups_t) (log : list warning) :
  group_all lib messages = Ok (g, log) ->
  forall k, lookup k g =
            match attributed_to lib k messages with
            | [] => None
            | members => Some (summary lib members)
            end.
Proof.
  intros Hrun k. unfold group_all in Hrun.
  rewrite (for_each_lookup _ _ _ _ _ Hrun k). unfold absorb_into. simpl.
  now destruct (attributed_to lib k messages).
Qed.

Lemma for_each_NoDup (messages : list message) :
  forall g log g' log',
    for_each (process_message lib) messages (g, log) = Ok (g', log') ->
    NoDup (map fst g) -> NoDup (map fst g').
Proof.
  induction messages as [|m ms IH]; intros g log g' log' Hrun Hnd.
  - inversion Hrun; subst. exact Hnd.
  - apply process_cons in Hrun as (l & log1 & Hread & Hkey & Hrun).
    apply (IH _ _ _ _ Hrun).
    destruct (kept_key l); [now apply NoDup_keys_update | exact Hnd].
Qed.

Lemma group_all_NoDup (messages : list message) (g : groups_t) (log : list warning) :
  group_all lib messages = Ok (g, log) -> NoDup (map fst g).
Proof.
  intros Hrun. apply (for_each_NoDup _ _ _ _ _ Hrun). constructor.
Qed.

Lemma for_each_total (messages : list message) :
  forall g log g' log',
    for_each (process_message lib) messages (g, log) = Ok (g', log') ->
    total_count g' = total_count g + List.length (not_dropped lib messages).
Proof.
  induction messages as [|m ms IH]; intros g log g' log' Hrun.
  - inversion Hrun; subst. simpl. lia.
  - apply process_cons in Hrun as (l & log1 & Hread & Hkey & Hrun).
    rewrite (IH _ _ _ _ Hrun). unfold not_dropped. cbn [filter].
    rewrite Hkey.
    destruct (kept_key l) as [k|]; cbn [List.length]; [|lia].
    rewrite (total_count_update k _ 1); [lia|].
    apply count_group_step.
Qed.

Lemma for_each_positive (messages : list message) :
  forall g log g' log',
    for_each (process_message lib) messages (g, log) = Ok (g', log') ->
    Forall (fun item => 1 <= count (snd item)) g ->
    Forall (fun item => 1 <= count (snd item)) g'.
Proof.
  induction messages as [|m ms IH]; intros g log g' log' Hrun Hpos.
  - inversion Hrun; subst. exact Hpos.
  - apply process_cons in Hrun as (l & log1 & Hread & Hkey & Hrun).
    apply (IH _ _ _ _ Hrun).
    destruct (kept_key l) as [k|]; [|exact Hpos].
    apply (Forall_update (fun d => 1 <= count d)); [|exact Hpos].
    intros d. rewrite count_group_step. lia.
Qed.

End GrouperFacts.

(** ** The grouper: what a group holds *)

Section GroupFacts.

Variable lib : Lib.

Lemma absorb_snoc (ms : list message) (m : message) (g : group) :
  absorb lib (ms ++ [m])%list g = group_step lib m (absorb lib ms g).
Proof. unfold absorb. now rewrite fold_left_app. Qed.

Lemma ids_group_step (m : message) (g : group) :
  ids (group_step lib m g) = (ids g ++ [id m])%list.
Proof.
  unfold group_step, note_date.
  destruct (parsed_date lib (locals_of lib m)); [|reflexivity].
  simpl. destruct (latest_date g) as [d|]; [destruct (N.ltb d n)|]; reflexivity.
Qed.

Lemma unsubscribe_group_step (m : message) (g : group) :
  has_list_unsubscribe (group_step lib m g) =
  has_list_unsubscribe g || msg_has_list_unsubscribe (locals_of lib m).
Proof.
  unfold group_step, note_date.
  destruct (parsed_date lib (locals_of lib m)); [|reflexivity].
  simpl. destruct (latest_date g) as [d|]; [destruct (N.ltb d n)|]; reflexivity.
Qed.

Lemma count_absorb (ms : list message) (g : group) :
  count (absorb lib ms g) = count g + List.length ms.
Proof.
  induction ms as [|m ms IH] using rev_ind; [simpl; lia|].
  rewrite absorb_snoc, count_group_step, IH, length_app. simpl. lia.
Qed.

Lemma ids_absorb (ms : list message) (g : group) :
  ids (absorb lib ms g) = (ids g ++ map id ms)%list.
Proof.
  induction ms as [|m ms IH] using rev_ind; [simpl; now rewrite app_nil_r|].
  rewrite absorb_snoc, ids_group_step, IH, map_app, app_assoc. reflexivity.
Qed.

Lemma unsubscribe_absorb (ms : list message) (g : group) :
  has_list_unsubscribe (absorb lib ms g) =
  has_list_unsubscribe g
  || existsb (fun m => msg_has_list_unsubscribe (locals_of lib m)) ms.
Proof.
  induction ms as [|m ms IH] using rev_ind; [simpl; now rewrite orb_false_r|].
  rewrite absorb_snoc, unsubscribe_group_step, IH, existsb_app. simpl.
  now rewrite orb_false_r, orb_assoc.
Qed.

Lemma latest_group_step (pre : list message) (m : message) (g : group) :
  latest_in_sync lib pre g ->
  latest_in_sync lib (pre ++ [m])%list (group_step lib m g).
Proof.
  intros Hg. unfold group_step.
  destruct (parsed_date lib (locals_of lib m)) as [t|] eqn:Hp.
  - unfold note_date. cbn [latest_date count_message].
    destruct Hg as [(Hd & Hs & Hn & Hall) | (m0 & t0 & Hin & Hp0 & Hd & Hs & Hn & Hmax)].
    + rewrite Hd. right. exists m, t.
      repeat split; try reflexivity; try assumption.
      * apply in_or_app. right. now left.
      * intros m' t' Hin' Hp'. apply in_app_or in Hin' as [Hin'|[<-|[]]].
        -- rewrite (Hall _ Hin') in Hp'. discriminate.
        -- rewrite Hp in Hp'. inversion Hp'. lia.
    + rewrite Hd. destruct (N.ltb t0 t) eqn:Hlt.
      * apply N.ltb_lt in Hlt. right. exists m, t.
        repeat split; try reflexivity; try assumption.
        -- apply in_or_app. right. now left.
        -- intros m' t' Hin' Hp'. apply in_app_or in Hin' as [Hin'|[<-|[]]].
           ++ specialize (Hmax _ _ Hin' Hp'). lia.
           ++ rewrite Hp in Hp'. inversion Hp'. lia.
      * apply N.ltb_ge in Hlt. right. exists m0, t0.
        repeat split; try assumption.
        -- apply in_or_app. now left.
        -- intros m' t' Hin' Hp'. apply in_app_or in Hin' as [Hin'|[<-|[]]].
           ++ now apply (Hmax _ _ Hin' Hp').
           ++ rewrite Hp in Hp'. inversion Hp'. now subst.
  - destruct Hg as [(Hd & Hs & Hn & Hall) | (m0 & t0 & Hin & Hp0 & Hd & Hs & Hn & Hmax)].
    + left. repeat split; try assumption.
      intros m' Hin'. apply in_app_or in Hin' as [Hin'|[<-|[]]]; auto.
    + right. exists m0, t0. repeat split; try assumption.
      * apply in_or_app. now left.
      * intros m' t' Hin' Hp'. apply in_app_or in Hin' as [Hin'|[<-|[]]].
        -- now apply (Hmax _ _ Hin' Hp').
        -- rewrite Hp in Hp'. discriminate.
Qed.

Lemma latest_absorb (ms pre : list message) (g : group) :
  latest_in_sync lib pre g ->
  latest_in_sync lib (pre ++ ms)%list (absorb lib ms g).
Proof.
  induction ms as [|m ms IH] using rev_ind; intros Hg.
  - now rewrite app_nil_r.
  - rewrite absorb_snoc, app_assoc. now apply latest_group_step, IH.
Qed.

Lemma latest_summary (ms : list message) :
  latest_in_sync lib ms (summary lib ms).
Proof.
  apply (latest_absorb ms []). left. repeat split. intros m [].
Qed.

End GroupFacts.

(** ** The header loop *)

Section HeaderFacts.

Variable lib : Lib.

Lemma header_step_last_wins (st st1 : locals) (h : header) :
  header_step lib st h = Ok st1 -> last_wins lib st [h] st1.
Proof.
  unfold header_step, last_wins, named. cbn [last_named existsb].
  unfold named.
  destruct (name h) as [n|]; [|discriminate].
  destruct (String.eqb (lower n) "from") eqn:Ef.
  { apply String.eqb_eq in Ef. rewrite Ef. cbn.
    destruct (decode_email_header lib (value h)) as [s|e]; cbn; [|discriminate].
    intros H. inversion H; subst; cbn. now rewrite Bool.orb_false_r. }
  destruct (String.eqb (lower n) "subject") eqn:Es.
  { apply String.eqb_eq in Es. rewrite Es. cbn.
    destruct (decode_email_header lib (value h)) as [s|e]; cbn; [|discriminate].
    intros H. inversion H; subst; cbn. now rewrite Bool.orb_false_r. }
  destruct (String.eqb (lower n) "date") eqn:Ed.
  { apply String.eqb_eq in Ed. rewrite Ed. cbn.
    intros H. inversion H; subst; cbn. now rewrite Bool.orb_false_r. }
  destruct (String.eqb (lower n) "list-unsubscribe") eqn:Eu.
  { intros H. inversion H; subst; cbn. now rewrite Bool.orb_true_r. }
  intros H. inversion H; subst. now rewrite Bool.orb_false_r.
Qed.

Lemma last_wins_cons (st st1 l : locals) (h : header) (hs : list header) :
  last_wins lib st [h] st1 -> last_wins lib st1 hs l -> last_wins lib st (h :: hs) l.
Proof.
  unfold last_wins. cbn [last_named existsb].
  intros (Hf1 & Hs1 & Hd1 & Hu1) (Hf & Hs & Hd & Hu).
  split; [|split; [|split]].
  - destruct (last_named "from" hs); [exact Hf|].
    destruct Hf as [Ha Hb].
    destruct (named "from" h); destruct Hf1 as [Hc He]; rewrite Ha, Hb;
      split; assumption.
  - destruct (last_named "subject" hs); [exact Hs|].
    destruct (named "subject" h); congruence.
  - rewrite Hd. destruct (last_named "date" hs); [reflexivity|].
    rewrite Hd1. now destruct (named "date" h).
  - rewrite Hu, Hu1. now rewrite Bool.orb_false_r, Bool.orb_assoc.
Qed.

Lemma for_each_last_wins (hs : list header) :
  forall st l, for_each (header_step lib) hs st = Ok l -> last_wins lib st hs l.
Proof.
  induction hs as [|h hs IH]; intros st l Hrun.
  - inversion Hrun; subst. unfold last_wins. cbn.
    rewrite Bool.orb_false_r. repeat split.
  - cbn [for_each] in Hrun.
    destruct (header_step lib st h) as [st1|e] eqn:Hstep; cbn [bind] in Hrun;
      [|discriminate].
    apply (last_wins_cons st st1);
      [apply header_step_last_wins, Hstep | apply IH, Hrun].
Qed.

Lemma read_headers_last_wins (m : message) (l : locals) :
  read_headers lib m = Ok l -> last_wins lib initial_locals (headers_of m) l.
Proof. apply for_each_last_wins. Qed.

Lemma read_headers_unsubscribe (m : message) (l : locals) :
  read_headers lib m = Ok l ->
  msg_has_list_unsubscribe l = existsb (named "list-unsubscribe") (headers_of m).
Proof.
  intros H. apply read_headers_last_wins in H as (_ & _ & _ & Hu). exact Hu.
Qed.

End HeaderFacts.

Example ex_run : group_emails sample_lib ex_messages = Ok (ex_groups, ex_log).
Proof. vm_compute. reflexivity. Qed.

(** ** The grouper: the claims *)

Section GrouperClaims.

Variable lib : Lib.

Lemma group_emails_inv (messages : list message) (out : groups_t) (log : list warning) :
  group_emails lib messages = Ok (out, log) ->
  exists groups,
    group_all lib messages = Ok (groups, log) /\ out = filter_groups groups.
Proof.
  unfold group_emails.
  destruct (group_all lib messages) as [[groups log0]|e]; cbn; [|discriminate].
  intros H. inversion H; subst. now exists groups.
Qed.

Lemma retained_spec (d : group) :
  retained d = true <-> has_list_unsubscribe d = true \/ 1 < count d.
Proof.
  unfold retained. now rewrite orb_true_iff, Nat.ltb_lt.
Qed.

Lemma In_filter_groups (k : string) (d : group) (groups : groups_t) :
  In (k, d) (filter_groups groups) <-> In (k, d) groups /\ retained d = true.
Proof. unfold filter_groups. rewrite filter_In. simpl. tauto. Qed.

Lemma NoDup_keys_filter (p : string * group -> bool) (groups : groups_t) :
  NoDup (map fst groups) -> NoDup (map fst (filter p groups)).
Proof.
  induction groups as [|[k d] g IH]; simpl; intros Hnd; [constructor|].
  inversion Hnd as [|? ? Hnotin Hnd']; subst.
  destruct (p (k, d)); simpl; [|now apply IH].
  constructor; [|now apply IH].
  intros Hin. apply Hnotin. apply in_map_iff in Hin as ([k' d'] & Hk & Hin).
  apply filter_In in Hin as [Hin _]. apply in_map_iff. now exists (k', d').
Qed.

Lemma has_key_read (k : string) (m : message) :
  has_key lib k m = true ->
  exists l, read_headers lib m = Ok l /\ locals_of lib m = l /\
            kept_key l = Some k /\ key_of lib m = Some k.
Proof.
  unfold has_key, key_of, locals_of.
  destruct (read_headers lib m) as [l|e]; [|discriminate].
  destruct (kept_key l) as [k'|] eqn:Hk; [|discriminate].
  intros H. apply String.eqb_eq in H. subst k'. exists l. repeat split.
  exact Hk.
Qed.

(** An entry of the mapping is the summary of the messages with its key,
    of which there is at least one. *)
Lemma entry_is_summary (messages : list message) (groups : groups_t)
      (log : list warning) (k : string) (d : group) :
  group_all lib messages = Ok (groups, log) ->
  In (k, d) groups ->
  attributed_to lib k messages <> [] /\
  d = summary lib (attributed_to lib k messages).
Proof.
  intros Hrun Hin.
  pose proof (group_all_NoDup lib _ _ _ Hrun) as Hnd.
  pose proof (lookup_of_In _ _ _ Hnd Hin) as Hl.
  rewrite (group_all_lookup lib _ _ _ Hrun k) in Hl.
  destruct (attributed_to lib k messages) as [|m ms]; [discriminate|].
  inversion Hl. split; [discriminate | reflexivity].
Qed.

Lemma total_count_filter (groups : groups_t) :
  Forall (fun item => 1 <= count (snd item)) groups ->
  total_count (filter_groups groups) + List.length (filtered_out groups)
  = total_count groups /\
  Forall (fun item => count (snd item) = 1 /\
                      has_list_unsubscribe (snd item) = false)
         (filtered_out groups).
Proof.
  unfold filter_groups, filtered_out.
  induction 1 as [|[k d] g Hd Hg [IH1 IH2]]; simpl; [split; [reflexivity | constructor]|].
  destruct (retained d) eqn:E; simpl.
  - split; [lia | exact IH2].
  - unfold retained in E. apply orb_false_iff in E as [Eu Ec].
    apply Nat.ltb_ge in Ec. simpl in Hd.
    split; [lia|]. constructor; [simpl; split; [lia | exact Eu] | exact IH2].
Qed.

End GrouperClaims.

(** C6.  Whenever the grouper returns, a group of the mapping built by the
    loop is in the returned mapping if and only if its unsubscribe flag is
    true or its count is greater than 1; and a key under which exactly one
    message was counted, that message having no List-Unsubscribe header, is
    not a key of the returned mapping. *)
Theorem C6_filter_law (lib : Lib) (messages : list message)
        (out : groups_t) (log : list warning) :
  group_emails lib messages = Ok (out, log) ->
  exists groups,
    group_all lib messages = Ok (groups, log) /\
    (forall k d,
        In (k, d) out <->
        In (k, d) groups /\ (has_list_unsubscribe d = true \/ 1 < count d)) /\
    (forall k m,
        attributed_to lib k messages = [m] ->
        existsb (named "list-unsubscribe") (headers_of m) = false ->
        ~ In k (map fst out)).
Proof.
  intros Hout. destruct (group_emails_inv lib _ _ _ Hout) as (groups & Hrun & ->).
  exists groups. split; [exact Hrun|]. split.
  - intros k d. now rewrite In_filter_groups, retained_spec.
  - intros k m Hone Hno Hin.
    apply in_map_iff in Hin as ([k' d] & Hk & Hin). simpl in Hk. subst k'.
    apply In_filter_groups in Hin as [Hin Hret].
    destruct (entry_is_summary lib _ _ _ _ _ Hrun Hin) as [_ Hd].
    rewrite Hone in Hd.
    assert (Hm : has_key lib k m = true).
    { assert (Hmem : In m (attributed_to lib k messages)) by (rewrite Hone; now left).
      apply filter_In in Hmem. apply Hmem. }
    destruct (has_key_read lib _ _ Hm) as (l & Hread & Hloc & _ & _).
    apply retained_spec in Hret. subst d. unfold summary in Hret.
    rewrite unsubscribe_absorb, count_absorb in Hret. simpl in Hret.
    rewrite Hloc, (read_headers_unsubscribe lib _ _ Hread), Hno in Hret.
    simpl in Hret. destruct Hret as [Hret|Hret]; [discriminate | lia].
Qed.

(** The sample run: "b@y.org" has one message and no List-Unsubscribe. *)
Lemma C6_filter_law_witness :
  group_emails sample_lib ex_messages = Ok (ex_groups, ex_log) /\
  ~ In "b@y.org" (map fst ex_groups).
Proof.
  split; [vm_compute; reflexivity|].
  destruct (C6_filter_law sample_lib ex_messages ex_groups ex_log)
    as (groups & _ & _ & Hone); [vm_compute; reflexivity|].
  apply (Hone "b@y.org"
           (mk_message "m3" [hdr "From" "b@y.org"; hdr "Date" "not a date"]));
    vm_compute; reflexivity.
Defined.

(** C7, as amended.  Whenever the grouper returns, the counts of the groups
    built by the loop add up to the number of messages that were not dropped
    for want of a sender address; the counts of the returned groups add up
    to that number less the number of groups the filter removed, each of
    which has count 1 and no unsubscribe flag. *)
Theorem C7_counts_add_up (lib : Lib) (messages : list message)
        (out : groups_t) (log : list warning) :
  group_emails lib messages = Ok (out, log) ->
  exists groups,
    group_all lib messages = Ok (groups, log) /\
    out = filter_groups groups /\
    total_count groups = List.length (not_dropped lib messages) /\
    total_count out + List.length (filtered_out groups)
    = List.length (not_dropped lib messages) /\
    Forall (fun item => count (snd item) = 1 /\
                        has_list_unsubscribe (snd item) = false)
           (filtered_out groups).
Proof.
  intros Hout. destruct (group_emails_inv lib _ _ _ Hout) as (groups & Hrun & ->).
  exists groups.
  assert (Htot : total_count groups = List.length (not_dropped lib messages)).
  { unfold group_all in Hrun. now rewrite (for_each_total lib _ _ _ _ _ Hrun). }
  assert (Hpos : Forall (fun item => 1 <= count (snd item)) groups).
  { unfold group_all in Hrun.
    apply (for_each_positive lib _ _ _ _ _ Hrun). constructor. }
  destruct (total_count_filter groups Hpos) as [Hsum Hone].
  repeat split; try assumption. now rewrite Hsum.
Qed.

(** The sample run: four messages are not dropped. *)
Lemma C7_counts_add_up_witness :
  group_emails sample_lib ex_messages = Ok (ex_groups, ex_log) /\
  exists groups,
    total_count groups = 4 /\
    total_count ex_groups + List.length (filtered_out groups) = 4.
Proof.
  split; [vm_compute; reflexivity|].
  destruct (C7_counts_add_up sample_lib ex_messages ex_groups ex_log)
    as (groups & _ & _ & Htot & Hsum & _); [vm_compute; reflexivity|].
  exists groups. split; [exact Htot | exact Hsum].
Defined.

(** C7 as stated fails for a single message with the From header "a@x.com"
    and no List-Unsubscribe header: the message is not dropped, its group has
    count 1 and is removed by the filter, so the returned groups have total
    count 0, not 1. *)
Lemma C7_returned_counts_fall_short :
  group_emails sample_lib [mk_message "m1" [hdr "From" "a@x.com"]] = Ok ([], []) /\
  not_dropped sample_lib [mk_message "m1" [hdr "From" "a@x.com"]]
  = [mk_message "m1" [hdr "From" "a@x.com"]] /\
  total_count [] <>
  List.length (not_dropped sample_lib [mk_message "m1" [hdr "From" "a@x.com"]]).
Proof.
  repeat split; try (vm_compute; reflexivity). vm_compute. discriminate.
Qed.

(** C8.  Whenever the grouper returns, in every returned group either the
    latest date, the subject and the display sender are all unset and no
    message of the group has a parsed date, or all three are set and come
    from one message of the group, whose parsed date is the greatest among
    the parsed dates of the group's messages. *)
Theorem C8_latest_fields_in_sync (lib : Lib) (messages : list message)
        (out : groups_t) (log : list warning) (k : string) (d : group) :
  group_emails lib messages = Ok (out, log) ->
  In (k, d) out ->
  (latest_date d = None /\ subject d = None /\ sender_display d = None /\
   forall m, In m (attributed_to lib k messages) ->
             parsed_date lib (locals_of lib m) = None)
  \/
  (exists m t,
      In m (attributed_to lib k messages) /\
      parsed_date lib (locals_of lib m) = Some t /\
      latest_date d = Some t /\
      subject d = Some (msg_subject (locals_of lib m)) /\
      sender_display d = Some (sender (locals_of lib m)) /\
      forall m' t', In m' (attributed_to lib k messages) ->
                    parsed_date lib (locals_of lib m') = Some t' -> (t' <= t)%N).
Proof.
  intros Hout Hin.
  destruct (group_emails_inv lib _ _ _ Hout) as (groups & Hrun & ->).
  apply In_filter_groups in Hin as [Hin _].
  destruct (entry_is_summary lib _ _ _ _ _ Hrun Hin) as [_ ->].
  apply latest_summary.
Qed.

(** The sample run: the group of "a@x.com" follows its February message. *)
Lemma C8_latest_fields_in_sync_witness :
  group_emails sample_lib ex_messages = Ok (ex_groups, ex_log) /\
  exists m t,
    In m (attributed_to sample_lib "a@x.com" ex_messages) /\
    parsed_date sample_lib (locals_of sample_lib m) = Some t /\
    t = feb_1_2024 /\
    msg_subject (locals_of sample_lib m) = "two".
Proof.
  split; [vm_compute; reflexivity|].
  destruct (C8_latest_fields_in_sync sample_lib ex_messages ex_groups ex_log
              "a@x.com"
              {| count := 2; ids := [Some "m1"; Some "m2"];
                 latest_date := Some feb_1_2024; subject := Some "two";
                 sender_display := Some "a@x.com";
                 has_list_unsubscribe := false |})
    as [(Hd & _) | (m & t & Hin & Hp & Hd & Hs & _)];
    [vm_compute; reflexivity | now left | discriminate Hd |].
  exists m, t. cbn [latest_date subject] in Hd, Hs.
  repeat split; [exact Hin | exact Hp | congruence | congruence].
Defined.

(** C3, as amended.  Whenever the grouper returns, the keys of the mapping
    are pairwise distinct, and every key is the address extracted from the
    From header of an input message, as extracted (letter case is not
    changed); the group of a key holds exactly the messages whose extracted
    address is that very string, in processing order. *)
Theorem C3_keys_are_extracted_addresses (lib : Lib) (messages : list message)
        (out : groups_t) (log : list warning) :
  group_emails lib messages = Ok (out, log) ->
  NoDup (map fst out) /\
  forall k d,
    In (k, d) out ->
    (exists m l,
        In m messages /\ read_headers lib m = Ok l /\
        sender_email l = Some k /\ k = extract_email lib (sender l)) /\
    (forall m, In m (attributed_to lib k messages) <->
               In m messages /\ key_of lib m = Some k) /\
    ids d = map id (attributed_to lib k messages) /\
    count d = List.length (attributed_to lib k messages).
Proof.
  intros Hout. destruct (group_emails_inv lib _ _ _ Hout) as (groups & Hrun & ->).
  split.
  { apply NoDup_keys_filter, (group_all_NoDup lib _ _ _ Hrun). }
  intros k d Hin. apply In_filter_groups in Hin as [Hin _].
  destruct (entry_is_summary lib _ _ _ _ _ Hrun Hin) as [Hne ->].
  split; [|split; [|split]].
  - destruct (attributed_to lib k messages) as [|m ms] eqn:Hatt; [contradiction|].
    assert (Hm : In m (attributed_to lib k messages)) by (rewrite Hatt; now left).
    apply filter_In in Hm as [Hm Hk].
    destruct (has_key_read lib _ _ Hk) as (l & Hread & _ & Hkept & _).
    exists m, l. split; [exact Hm|]. split; [exact Hread|].
    unfold kept_key in Hkept.
    destruct (sender_email l) as [x|] eqn:Hse; [|discriminate].
    destruct (truthy x); [|discriminate]. inversion Hkept; subst x.
    split; [reflexivity|].
    destruct (read_headers_last_wins lib _ _ Hread) as (Hf & _).
    destruct (last_named "from" (headers_of m)).
    + destruct Hf as [_ Hf]. rewrite Hse in Hf. now inversion Hf.
    + destruct Hf as [_ Hf]. rewrite Hse in Hf. discriminate.
  - intros m. split.
    + intros Hm. apply filter_In in Hm as [Hm Hk]. split; [exact Hm|].
      now destruct (has_key_read lib _ _ Hk) as (_ & _ & _ & _ & H).
    + intros [Hm Hk]. apply filter_In. split; [exact Hm|].
      unfold has_key. rewrite Hk. apply String.eqb_refl.
  - unfold summary. now rewrite ids_absorb.
  - unfold summary. now rewrite count_absorb.
Qed.

(** The sample run: its keys are distinct. *)
Lemma C3_keys_are_extracted_addresses_witness :
  group_emails sample_lib ex_messages = Ok (ex_groups, ex_log) /\
  NoDup (map fst ex_groups).
Proof.
  split; [vm_compute; reflexivity|].
  apply (C3_keys_are_extracted_addresses sample_lib ex_messages ex_groups ex_log).
  vm_compute; reflexivity.
Defined.

(** C3 as stated fails for two messages with the From headers "a@x.com" and
    "A@x.com", each with a List-Unsubscribe header: the addresses differ only
    in letter case, yet the mapping has two groups, and the key of the
    second is not lower-cased. *)
Lemma C3_case_is_not_folded :
  group_emails sample_lib
    [mk_message "m1" [hdr "From" "a@x.com"; hdr "List-Unsubscribe" "<u1>"];
     mk_message "m2" [hdr "From" "A@x.com"; hdr "List-Unsubscribe" "<u2>"]]
  = Ok ([("a@x.com",
          {| count := 1; ids := [Some "m1"]; latest_date := None;
             subject := None; sender_display := None;
             has_list_unsubscribe := true |});
         ("A@x.com",
          {| count := 1; ids := [Some "m2"]; latest_date := None;
             subject := None; sender_display := None;
             has_list_unsubscribe := true |})], []) /\
  lower "A@x.com" = lower "a@x.com" /\
  lower "A@x.com" <> "A@x.com".
Proof.
  repeat split; try (vm_compute; reflexivity). vm_compute. discriminate.
Qed.

(** C10.  Whenever the header loop of a message completes, the sender and
    the address come from the last From header (the defaults when there is
    none), the subject from the last Subject header, the date string is the
    value of the last Date header, and the unsubscribe flag is true exactly
    when some header is named List-Unsubscribe, whatever its value; names
    are compared after lower-casing. *)
Theorem C10_last_occurrence_wins (lib : Lib) (m : message) (l : locals) :
  read_headers lib m = Ok l ->
  match last_named "from" (headers_of m) with
  | Some h =>
      decode_email_header lib (value h) = Ok (sender l) /\
      sender_email l = Some (extract_email lib (sender l))
  | None => sender l = "Unknown Sender" /\ sender_email l = None
  end /\
  match last_named "subject" (headers_of m) with
  | Some h => decode_email_header lib (value h) = Ok (msg_subject l)
  | None => msg_subject l = "No Subject"
  end /\
  date_str l =
    match last_named "date" (headers_of m) with
    | Some h => value h
    | None => None
    end /\
  msg_has_list_unsubscribe l =
    existsb (named "list-unsubscribe") (headers_of m).
Proof.
  intros Hread. exact (read_headers_last_wins lib m l Hread).
Qed.

(** A message with two From, two Subject and two Date headers. *)
Lemma C10_last_occurrence_wins_witness :
  read_headers sample_lib
    (mk_message "m"
       [hdr "From" "b@y.org"; hdr "Subject" "first"; hdr "subject" "second";
        hdr "DATE" "Mon, 01 Jan 2024 00:00:00 +0000"; hdr "FROM" "a@x.com";
        hdr "Date" "not a date"; hdr "List-Unsubscribe" ""])
  = Ok {| sender := "a@x.com"; sender_email := Some "a@x.com";
          msg_subject := "second"; date_str := Some "not a date";
          msg_has_list_unsubscribe := true |} /\
  date_str {| sender := "a@x.com"; sender_email := Some "a@x.com";
              msg_subject := "second"; date_str := Some "not a date";
              msg_has_list_unsubscribe := true |}
  = value (hdr "Date" "not a date").
Proof.
  split; [vm_compute; reflexivity|].
  apply (C10_last_occurrence_wins sample_lib
           (mk_message "m"
              [hdr "From" "b@y.org"; hdr "Subject" "first"; hdr "subject" "second";
               hdr "DATE" "Mon, 01 Jan 2024 00:00:00 +0000"; hdr "FROM" "a@x.com";
               hdr "Date" "not a date"; hdr "List-Unsubscribe" ""])).
  vm_compute; reflexivity.
Defined.

(** ** Failures *)

Section FailureFacts.

Variable lib : Lib.

Lemma decode_parts_raises (parts : list (chunk * option string))
      (p : chunk * option string) :
  In p parts -> (exists e, decode_part lib p = Raise e) ->
  exists e, decode_parts lib parts = Raise e.
Proof.
  intros Hin [e He]. induction parts as [|q parts IH]; [destruct Hin|].
  cbn [decode_parts]. destruct Hin as [->|Hin].
  - rewrite He. now exists e.
  - destruct (decode_part lib q) as [d|e']; cbn [bind]; [|now exists e'].
    destruct (IH Hin) as [e'' ->]. now exists e''.
Qed.

Lemma decode_fails_raises (v : string) :
  decode_fails lib v -> exists e, decode_email_header lib (Some v) = Raise e.
Proof.
  unfold decode_email_header.
  intros [[e He] | (parts & b & cs & e & Hh & Hin & Hb)].
  - rewrite He. now exists e.
  - rewrite Hh. cbn [bind].
    destruct (decode_parts_raises parts (Bytes b, Some cs) Hin) as [e' ->].
    + exists e. unfold decode_part. cbn [fst snd]. now rewrite Hb.
    + now exists e'.
Qed.

Lemma header_step_raises (h : header) (v : string) :
  named "from" h = true \/ named "subject" h = true ->
  value h = Some v -> decode_fails lib v ->
  forall st, exists e, header_step lib st h = Raise e.
Proof.
  intros Hname Hv Hfail st.
  destruct (decode_fails_raises v Hfail) as [e He].
  unfold header_step, named in *.
  destruct (name h) as [n|]; [|now exists AttributeError].
  rewrite Hv. destruct Hname as [Hn|Hn]; apply String.eqb_eq in Hn; rewrite Hn;
    simpl (String.eqb _ _); cbv iota; rewrite He; now exists e.
Qed.

Lemma group_all_raises (messages : list message) (m : message) :
  In m messages -> (exists e, read_headers lib m = Raise e) ->
  exists e, group_emails lib messages = Raise e.
Proof.
  intros Hin [e He].
  destruct (for_each_raises (process_message lib) messages m Hin) with (s := (@nil (string * group), @nil warning))
    as [e' He'].
  - intros st. exists e. unfold process_message. now rewrite He.
  - exists e'. unfold group_emails, group_all. now rewrite He'.
Qed.

End FailureFacts.

(** C1, as amended.  If a From or Subject header of some input message has a
    value with a segment that cannot be decoded, the grouper does not
    return: an exception leaves [group_emails], so no mapping is produced
    for any message, no fallback value is substituted and no warning is
    recorded. *)
Theorem C1_decode_failure_aborts (lib : Lib) (messages : list message)
        (m : message) (h : header) (v : string) :
  In m messages ->
  In h (headers_of m) ->
  named "from" h = true \/ named "subject" h = true ->
  value h = Some v ->
  decode_fails lib v ->
  exists e, group_emails lib messages = Raise e.
Proof.
  intros Hm Hh Hname Hv Hfail.
  apply (group_all_raises lib messages m Hm).
  unfold read_headers.
  apply (for_each_raises (header_step lib) (headers_of m) h Hh).
  now apply (header_step_raises lib h v).
Qed.

(** A Subject header with an unknown charset after a sound message. *)
Lemma C1_decode_failure_aborts_witness :
  exists e,
    group_emails sample_lib
      [mk_message "m1" [hdr "From" "a@x.com"; hdr "List-Unsubscribe" "<u1>"];
       mk_message "m2" [hdr "Subject" "=?x-unknown?q?abc?="]]
    = Raise e.
Proof.
  apply (C1_decode_failure_aborts sample_lib _
           (mk_message "m2" [hdr "Subject" "=?x-unknown?q?abc?="])
           (hdr "Subject" "=?x-unknown?q?abc?=") "=?x-unknown?q?abc?=").
  - right. now left.
  - now left.
  - right. reflexivity.
  - reflexivity.
  - right. exists [(Bytes "abc", Some "x-unknown")], "abc", "x-unknown", LookupError.
    repeat split. now left.
Defined.

(** C1 as stated fails for a message with the From header
    "=?x-unknown?q?abc?=", whose declared charset is unknown: the run over
    that message and a sound one ends in [LookupError]; it does not return
    the group of the sound message, nor a group keyed by the raw header. *)
Lemma C1_run_is_aborted :
  decode_email_header sample_lib (Some "=?x-unknown?q?abc?=") = Raise LookupError /\
  group_emails sample_lib
    [mk_message "m1" [hdr "From" "a@x.com"; hdr "List-Unsubscribe" "<u1>"];
     mk_message "m2" [hdr "From" "=?x-unknown?q?abc?=";
                      hdr "List-Unsubscribe" "<u2>"]]
  = Raise LookupError /\
  group_emails sample_lib
    [mk_message "m1" [hdr "From" "a@x.com"; hdr "List-Unsubscribe" "<u1>"]]
  = Ok ([("a@x.com",
          {| count := 1; ids := [Some "m1"]; latest_date := None;
             subject := None; sender_display := None;
             has_list_unsubscribe := true |})], []).
Proof.
  repeat split; vm_compute; reflexivity.
Qed.

Lemma for_each_no_headers (lib : Lib) (messages : list message) :
  (forall m, In m messages -> headers_of m = []) ->
  forall log,
    for_each (process_message lib) messages ([], log)
    = Ok ([], (log ++ map (fun _ => NoSenderEmail "Unknown Sender") messages)%list).
Proof.
  induction messages as [|m ms IH]; intros Hall log.
  - cbn. now rewrite app_nil_r.
  - cbn [for_each map]. unfold process_message at 1, read_headers.
    rewrite (Hall m (or_introl eq_refl)). cbn.
    rewrite IH; [|intros m' Hm'; apply Hall; now right].
    now rewrite <- app_assoc.
Qed.

(** C4, as amended.  When the payload, or the header list of the payload, is
    absent from every record, the grouper returns normally: the mapping is
    empty, as it is for an input without messages, and one missing-sender
    warning is recorded per record; no error result is produced. *)
Theorem C4_absent_payload_is_silent (lib : Lib) (messages : list message) :
  (forall m, In m messages ->
             payload m = None \/
             exists p, payload m = Some p /\ headers p = None) ->
  group_emails lib messages
  = Ok ([], map (fun _ => NoSenderEmail "Unknown Sender") messages) /\
  group_emails lib [] = Ok ([], []).
Proof.
  intros Hall. split; [|reflexivity].
  unfold group_emails, group_all. rewrite for_each_no_headers; [reflexivity|].
  intros m Hm. unfold headers_of.
  destruct (Hall m Hm) as [-> | (p & -> & ->)]; reflexivity.
Qed.

(** Two records, one without payload and one without header list. *)
Lemma C4_absent_payload_is_silent_witness :
  group_emails sample_lib
    [{| id := Some "m1"; payload := None |};
     {| id := Some "m2"; payload := Some {| headers := None |} |}]
  = Ok ([], [NoSenderEmail "Unknown Sender"; NoSenderEmail "Unknown Sender"]) /\
  group_emails sample_lib [] = Ok ([], []).
Proof.
  apply (C4_absent_payload_is_silent sample_lib
           [{| id := Some "m1"; payload := None |};
            {| id := Some "m2"; payload := Some {| headers := None |} |}]).
  intros m [<-|[<-|[]]].
  - now left.
  - right. now exists {| headers := None |}.
Defined.

(** C4 as stated fails for two records, one without a payload and one whose
    payload has no header list: the grouper returns normally with the empty
    mapping and two warnings; the result is not an error, and its mapping is
    the one returned for no messages at all. *)
Lemma C4_unusable_input_returns_empty :
  group_emails sample_lib
    [{| id := Some "m1"; payload := None |};
     {| id := Some "m2"; payload := Some {| headers := None |} |}]
  = Ok ([], [NoSenderEmail "Unknown Sender"; NoSenderEmail "Unknown Sender"]) /\
  (forall e,
      group_emails sample_lib
        [{| id := Some "m1"; payload := None |};
         {| id := Some "m2"; payload := Some {| headers := None |} |}]
      <> Raise e) /\
  group_emails sample_lib [] = Ok ([], []).
Proof.
  repeat split; try (vm_compute; reflexivity). intros e. vm_compute. discriminate.
Qed.





(* ================================================================== *)
(** * Further properties *)

(** ** The encoded query and the search link *)

Lemma append_assoc (a b c : string) : (a ++ b) ++ c = a ++ (b ++ c).
Proof. induction a as [|x a IH]; simpl; [reflexivity | now rewrite IH]. Qed.

Lemma form_encode_app (a b : string) :
  form_encode (a ++ b) = form_encode a ++ form_encode b.
Proof.
  induction a as [|c a IH]; simpl; [reflexivity|].
  now rewrite IH, append_assoc.
Qed.

Lemma string_forall_app (p : ascii -> bool) (a b : string) :
  string_forall p (a ++ b) = string_forall p a && string_forall p b.
Proof.
  induction a as [|c a IH]; simpl; [reflexivity|].
  now rewrite IH, andb_assoc.
Qed.

Lemma form_byte_chars (c : ascii) :
  string_forall encoded_char (form_byte c) = true.
Proof. each_byte c; reflexivity. Qed.

Lemma form_byte_length (c : ascii) :
  (1 <= String.length (form_byte c) <= 3)%nat.
Proof. each_byte c; simpl; lia. Qed.

Lemma append_length (a b : string) :
  String.length (a ++ b) = String.length a + String.length b.
Proof. induction a as [|c a IH]; simpl; [reflexivity | now rewrite IH]. Qed.

(** X1.  Whatever the text, [quote_plus] emits only ASCII letters, digits,
    [_.-~], percent signs and plus signs, so the fragment of the search link
    never holds a raw space, colon, parenthesis, slash or hash sign; and the
    encoded text has at least as many characters as the text has UTF-8
    bytes ([String.length] counts those) and at most three times as many. *)
Theorem X1_quote_plus_alphabet (s : string) :
  string_forall encoded_char (Urllib.quote_plus s) = true /\
  (String.length s <= String.length (Urllib.quote_plus s)
   <= 3 * String.length s)%nat.
Proof.
  rewrite quote_plus_form_encode.
  induction s as [|c s [IHc IHl]]; simpl; [split; [reflexivity | lia]|].
  rewrite string_forall_app, form_byte_chars, IHc, append_length.
  pose proof (form_byte_length c). split; [reflexivity | lia].
Qed.

(** X3.  [quote_plus] distributes over concatenation, so the search link is
    the template, the encoded query, the fixed text "+from%3A%28", the
    encoded sender address and "%29". *)
Theorem X3_search_url_shape (Q s : string) :
  (forall a b, Urllib.quote_plus (a ++ b)
               = Urllib.quote_plus a ++ Urllib.quote_plus b) /\
  search_url Q s =
    "https://mail.google.com/mail/u/0/#search/"
      ++ Urllib.quote_plus Q ++ "+from%3A%28" ++ Urllib.quote_plus s ++ "%29".
Proof.
  split.
  - intros a b. now rewrite !quote_plus_form_encode, form_encode_app.
  - unfold search_url, encoded_query, full_filter_string, generate_filter_query.
    rewrite !quote_plus_form_encode, !form_encode_app. reflexivity.
Qed.

Lemma append_cancel_l (a b c : string) : a ++ b = a ++ c -> b = c.
Proof.
  induction a as [|x a IH]; simpl; intros H; [exact H|].
  inversion H. now apply IH.
Qed.

Lemma append_cancel_r (a b t : string) : a ++ t = b ++ t -> a = b.
Proof.
  revert b. induction a as [|x a IH]; intros [|y b] H; simpl in H.
  - reflexivity.
  - apply (f_equal String.length) in H. simpl in H.
    rewrite append_length in H. lia.
  - apply (f_equal String.length) in H. simpl in H.
    rewrite append_length in H. lia.
  - inversion H. f_equal. now apply IH.
Qed.

Lemma quote_plus_injective (a b : string) :
  Urllib.quote_plus a = Urllib.quote_plus b -> a = b.
Proof.
  rewrite !quote_plus_form_encode. intros H.
  apply (f_equal Urllib.unquote_plus) in H.
  now rewrite !unquote_plus_form_encode in H.
Qed.

(** X2.  For one query, two sender addresses with the same search link are
    the same address; for one sender address, two queries with the same link
    are the same query. *)
Theorem X2_search_url_injective (Q1 Q2 s1 s2 : string) :
  search_url Q1 s1 = search_url Q2 s2 ->
  (Q1 = Q2 -> s1 = s2) /\ (s1 = s2 -> Q1 = Q2).
Proof.
  unfold search_url, encoded_query. intros H.
  apply append_cancel_l, quote_plus_injective in H.
  unfold full_filter_string, generate_filter_query in H. split.
  - intros ->. apply append_cancel_l in H. simpl in H.
    inversion H as [H']. now apply append_cancel_r in H'.
  - intros ->.
    now apply (append_cancel_r Q1 Q2 (" " ++ "from:(" ++ s2 ++ ")")).
Qed.

(** Two addresses that share a link under the query "is:unread". *)
Lemma X2_search_url_injective_witness :
  search_url "is:unread" "foo@bar.com" = search_url "is:unread" "foo@bar.com" /\
  ("is:unread" = "is:unread" -> "foo@bar.com" = "foo@bar.com").
Proof.
  split; [reflexivity|].
  apply (X2_search_url_injective "is:unread" "is:unread" "foo@bar.com" "foo@bar.com").
  reflexivity.
Defined.

(** ** The header decoder *)

Section DecoderFacts.

Variable lib : Lib.

Lemma decode_parts_member (parts : list (chunk * option string))
      (ds : list chunk) (p : chunk * option string) :
  decode_parts lib parts = Ok ds -> In p parts ->
  exists d, decode_part lib p = Ok d /\ In d ds.
Proof.
  revert ds. induction parts as [|q parts IH]; intros ds Hds Hin; [destruct Hin|].
  cbn [decode_parts] in Hds.
  destruct (decode_part lib q) as [d|e] eqn:Hq; cbn [bind] in Hds; [|discriminate].
  destruct (decode_parts lib parts) as [ds'|e]; cbn [bind] in Hds; [|discriminate].
  inversion Hds; subst ds. destruct Hin as [->|Hin].
  - exists d. split; [exact Hq | now left].
  - destruct (IH ds' eq_refl Hin) as (d' & Hd' & Hin'). exists d'.
    split; [exact Hd' | now right].
Qed.

Lemma decode_parts_all (parts : list (chunk * option string)) :
  Forall (fun p => exists d, decode_part lib p = Ok d) parts ->
  exists ds, decode_parts lib parts = Ok ds.
Proof.
  induction 1 as [|p parts [d Hd] _ [ds IH]]; [now exists []|].
  exists (d :: ds). cbn [decode_parts]. now rewrite Hd, IH.
Qed.

Lemma all_str_bytes (ds : list chunk) (b : string) :
  In (Bytes b) ds -> all_str ds = Raise TypeError.
Proof.
  induction ds as [|d ds IH]; intros Hin; [destruct Hin|].
  destruct d as [s|b']; [|reflexivity].
  destruct Hin as [Hd|Hin]; [discriminate|].
  cbn [all_str]. now rewrite (IH Hin).
Qed.

End DecoderFacts.

(** X4.  If [decode_header] returns a [bytes] chunk without a charset (as it
    does for a header that mixes encoded words with plain text), the decoder
    never returns a text: it raises, and when every chunk with a charset
    decodes, the exception is the [TypeError] of [' '.join]. *)
Theorem X4_mixed_header_raises (lib : Lib) (h : string)
        (parts : list (chunk * option string)) (b : string) :
  decode_header lib h = Ok parts ->
  In (Bytes b, None) parts ->
  (exists e, decode_email_header lib (Some h) = Raise e) /\
  (Forall (fun p => exists d, decode_part lib p = Ok d) parts ->
   decode_email_header lib (Some h) = Raise TypeError).
Proof.
  intros Hh Hin. unfold decode_email_header. rewrite Hh. cbn [bind].
  assert (Hty : forall ds, decode_parts lib parts = Ok ds ->
                           all_str ds = Raise TypeError).
  { intros ds Hds.
    destruct (decode_parts_member lib _ _ _ Hds Hin) as (d & Hd & Hind).
    cbn in Hd. inversion Hd; subst d. now apply (all_str_bytes ds b). }
  split.
  - destruct (decode_parts lib parts) as [ds|e] eqn:Hds; cbn [bind].
    + rewrite (Hty ds eq_refl). now exists TypeError.
    + now exists e.
  - intros Hall. destruct (decode_parts_all lib parts Hall) as [ds Hds].
    rewrite Hds. cbn [bind]. now rewrite (Hty ds Hds).
Qed.

(** A From value with a display name in an encoded word. *)
Lemma X4_mixed_header_raises_witness :
  decode_email_header mixed_lib (Some "=?utf-8?q?Ann?= <ann@example.com>")
  = Raise TypeError.
Proof.
  apply (X4_mixed_header_raises mixed_lib "=?utf-8?q?Ann?= <ann@example.com>"
           [(Bytes "Ann", Some "utf-8"); (Bytes " <ann@example.com>", None)]
           " <ann@example.com>").
  - reflexivity.
  - right. now left.
  - repeat constructor; eexists; reflexivity.
Defined.

(** ** The grouper: log, key order and group contents *)

Section MoreGrouperFacts.

Variable lib : Lib.

Lemma key_of_locals (m : message) :
  key_of lib m = kept_key (locals_of lib m).
Proof.
  unfold key_of, locals_of. now destruct (read_headers lib m).
Qed.

Lemma attribute_log (g : groups_t) (log : list warning) (m : message) (l : locals) :
  read_headers lib m = Ok l ->
  snd (attribute lib (g, log) m l) = (log ++ message_warnings lib m)%list.
Proof.
  intros Hread. unfold attribute, message_warnings, kept_key.
  rewrite (locals_of_read _ _ _ Hread).
  destruct (sender_email l) as [k|]; [|reflexivity].
  destruct (truthy k); [|reflexivity].
  destruct (date_str l) as [ds|]; [|now rewrite app_nil_r].
  destruct (truthy ds); [|now rewrite app_nil_r].
  destruct (date_parse_utc lib ds); [now rewrite app_nil_r | reflexivity].
Qed.

(** One turn of the message loop that does not raise, with its log. *)
Lemma process_cons_log (m : message) (ms : list message) (g : groups_t)
      (log : list warning) (st' : groups_t * list warning) :
  for_each (process_message lib) (m :: ms) (g, log) = Ok st' ->
  for_each (process_message lib) ms
    (match key_of lib m with
     | Some k => update k (group_step lib m) g
     | None => g
     end, (log ++ message_warnings lib m)%list) = Ok st'.
Proof.
  cbn [for_each]. unfold process_message at 1.
  destruct (read_headers lib m) as [l|e] eqn:Hread; cbn [bind]; [|discriminate].
  intros Hrun. rewrite (key_of_read _ _ _ Hread).
  rewrite <- (attribute_groups lib g log m l Hread).
  rewrite <- (attribute_log g log m l Hread), <- surjective_pairing.
  exact Hrun.
Qed.

Lemma for_each_log (messages : list message) :
  forall g log g' log',
    for_each (process_message lib) messages (g, log) = Ok (g', log') ->
    log' = (log ++ flat_map (message_warnings lib) messages)%list.
Proof.
  induction messages as [|m ms IH]; intros g log g' log' Hrun.
  - inversion Hrun; subst. now rewrite app_nil_r.
  - apply process_cons_log in Hrun. rewrite (IH _ _ _ _ Hrun).
    cbn [flat_map]. now rewrite app_assoc.
Qed.

Lemma no_sender_warnings (messages : list message) :
  List.length messages =
  List.length (not_dropped lib messages)
  + List.length (filter is_no_sender (flat_map (message_warnings lib) messages)).
Proof.
  induction messages as [|m ms IH]; [reflexivity|].
  unfold not_dropped in *. cbn [flat_map filter List.length].
  rewrite filter_app, length_app, IH.
  unfold message_warnings. rewrite key_of_locals.
  destruct (kept_key (locals_of lib m)) as [k|]; cbn [List.length filter is_no_sender]; [|lia].
  destruct (date_str (locals_of lib m)) as [ds|]; [|simpl; lia].
  destruct (truthy ds); [|simpl; lia].
  destruct (date_parse_utc lib ds); simpl; lia.
Qed.

Lemma existsb_keys (k : string) (g : groups_t) :
  existsb (String.eqb k) (map fst g) =
  match lookup k g with
  | Some _ => true
  | None => false
  end.
Proof.
  induction g as [|[k' d] g IH]; simpl; [reflexivity|].
  destruct (String.eqb k k'); [reflexivity | exact IH].
Qed.

Lemma for_each_keys (messages : list message) :
  forall g log g' log',
    for_each (process_message lib) messages (g, log) = Ok (g', log') ->
    map fst g' = fold_left add_key (message_keys lib messages) (map fst g).
Proof.
  induction messages as [|m ms IH]; intros g log g' log' Hrun.
  - inversion Hrun; subst. reflexivity.
  - apply process_cons_log in Hrun. rewrite (IH _ _ _ _ Hrun).
    unfold message_keys. cbn [flat_map].
    destruct (key_of lib m) as [k|]; [|reflexivity].
    cbn [app fold_left]. f_equal.
    unfold add_key. rewrite keys_update, existsb_keys.
    now destruct (lookup k g).
Qed.

Lemma existsb_ext_in {A : Type} (p q : A -> bool) (l : list A) :
  (forall x, In x l -> p x = q x) -> existsb p l = existsb q l.
Proof.
  induction l as [|x l IH]; intros H; simpl; [reflexivity|].
  rewrite (H x (or_introl eq_refl)), IH; [reflexivity|].
  intros y Hy. apply H. now right.
Qed.

End MoreGrouperFacts.

(** X6.  Whenever the grouper returns, every returned group has at least one
    message and as many ids as its count says. *)
Theorem X6_count_is_number_of_ids (lib : Lib) (messages : list message)
        (out : groups_t) (log : list warning) (k : string) (d : group) :
  group_emails lib messages = Ok (out, log) ->
  In (k, d) out ->
  count d = List.length (ids d) /\ 1 <= count d.
Proof.
  intros Hout Hin.
  destruct (group_emails_inv lib _ _ _ Hout) as (groups & Hrun & ->).
  apply In_filter_groups in Hin as [Hin _].
  destruct (entry_is_summary lib _ _ _ _ _ Hrun Hin) as [Hne ->].
  unfold summary. rewrite count_absorb, ids_absorb, length_app, length_map.
  split; [reflexivity|].
  destruct (attributed_to lib k messages); [contradiction | simpl; lia].
Qed.

(** The sample run, at the group of "a@x.com". *)
Lemma X6_count_is_number_of_ids_witness :
  2 = List.length [Some "m1"; Some "m2"] /\ 1 <= 2.
Proof.
  apply (X6_count_is_number_of_ids sample_lib ex_messages ex_groups ex_log
           "a@x.com"
           {| count := 2; ids := [Some "m1"; Some "m2"];
              latest_date := Some feb_1_2024; subject := Some "two";
              sender_display := Some "a@x.com";
              has_list_unsubscribe := false |});
    [vm_compute; reflexivity | now left].
Defined.

(** X7.  Whenever the grouper returns, the unsubscribe flag of a returned
    group is true exactly when one of the messages counted under its key has
    a List-Unsubscribe header. *)
Theorem X7_unsubscribe_flag_is_any (lib : Lib) (messages : list message)
        (out : groups_t) (log : list warning) (k : string) (d : group) :
  group_emails lib messages = Ok (out, log) ->
  In (k, d) out ->
  has_list_unsubscribe d =
  existsb has_unsubscribe_header (attributed_to lib k messages).
Proof.
  intros Hout Hin.
  destruct (group_emails_inv lib _ _ _ Hout) as (groups & Hrun & ->).
  apply In_filter_groups in Hin as [Hin _].
  destruct (entry_is_summary lib _ _ _ _ _ Hrun Hin) as [_ ->].
  unfold summary. rewrite unsubscribe_absorb. simpl.
  apply existsb_ext_in. intros m Hm. apply filter_In in Hm as [_ Hk].
  destruct (has_key_read lib _ _ Hk) as (l & Hread & -> & _).
  exact (read_headers_unsubscribe lib m l Hread).
Qed.

(** The sample run, at the group of "ann@example.com". *)
Lemma X7_unsubscribe_flag_is_any_witness :
  true = existsb has_unsubscribe_header
           (attributed_to sample_lib "ann@example.com" ex_messages).
Proof.
  apply (X7_unsubscribe_flag_is_any sample_lib ex_messages ex_groups ex_log
           "ann@example.com"
           {| count := 1; ids := [Some "m4"];
              latest_date := None; subject := None;
              sender_display := None; has_list_unsubscribe := true |});
    [vm_compute; reflexivity | right; now left].
Defined.

(** X8.  Whenever the message loop completes, the keys of its mapping are
    the sender addresses of the counted messages in the order in which each
    address first occurs; the returned mapping keeps that order for the
    groups it retains. *)
Theorem X8_keys_in_first_occurrence_order (lib : Lib) (messages : list message)
        (out : groups_t) (log : list warning) :
  group_emails lib messages = Ok (out, log) ->
  exists groups,
    group_all lib messages = Ok (groups, log) /\
    map fst groups = first_occurrences (message_keys lib messages) /\
    out = filter (fun item => retained (snd item)) groups.
Proof.
  intros Hout.
  destruct (group_emails_inv lib _ _ _ Hout) as (groups & Hrun & ->).
  exists groups. split; [exact Hrun|]. split; [|reflexivity].
  unfold group_all in Hrun. now rewrite (for_each_keys lib _ _ _ _ _ Hrun).
Qed.

(** The sample run: three addresses, the first of them seen twice. *)
Lemma X8_keys_in_first_occurrence_order_witness :
  exists groups,
    group_all sample_lib ex_messages = Ok (groups, ex_log) /\
    map fst groups = ["a@x.com"; "b@y.org"; "ann@example.com"].
Proof.
  destruct (X8_keys_in_first_occurrence_order sample_lib ex_messages
              ex_groups ex_log) as (groups & Hrun & Hkeys & _);
    [vm_compute; reflexivity|].
  exists groups. split; [exact Hrun | exact Hkeys].
Defined.

(** X9.  Whenever the message loop completes, the log holds the warnings of
    the messages in processing order, at most one per message, and every
    input message is either counted in a group or reported by one
    missing-sender warning. *)
Theorem X9_every_message_counted_or_reported (lib : Lib)
        (messages : list message) (groups : groups_t) (log : list warning) :
  group_all lib messages = Ok (groups, log) ->
  log = flat_map (message_warnings lib) messages /\
  (forall m, List.length (message_warnings lib m) <= 1) /\
  List.length messages =
  total_count groups + List.length (filter is_no_sender log).
Proof.
  intros Hrun. unfold group_all in Hrun.
  pose proof (for_each_log lib _ _ _ _ _ Hrun) as Hlog. simpl in Hlog.
  split; [exact Hlog|]. split.
  - intros m. unfold message_warnings.
    destruct (kept_key (locals_of lib m)); [|simpl; lia].
    destruct (date_str (locals_of lib m)) as [ds|]; [|simpl; lia].
    destruct (truthy ds); [|simpl; lia].
    destruct (date_parse_utc lib ds); simpl; lia.
  - rewrite (for_each_total lib _ _ _ _ _ Hrun), Hlog. simpl.
    apply no_sender_warnings.
Qed.

(** The sample run: five messages, four counted, one reported. *)
Lemma X9_every_message_counted_or_reported_witness :
  exists groups,
    5 = total_count groups + List.length (filter is_no_sender ex_log).
Proof.
  exists [("a@x.com",
           {| count := 2; ids := [Some "m1"; Some "m2"];
              latest_date := Some feb_1_2024; subject := Some "two";
              sender_display := Some "a@x.com";
              has_list_unsubscribe := false |});
          ("b@y.org",
           {| count := 1; ids := [Some "m3"];
              latest_date := None; subject := None;
              sender_display := None; has_list_unsubscribe := false |});
          ("ann@example.com",
           {| count := 1; ids := [Some "m4"];
              latest_date := None; subject := None;
              sender_display := None; has_list_unsubscribe := true |})].
  apply (X9_every_message_counted_or_reported sample_lib ex_messages).
  vm_compute; reflexivity.
Defined.

(** ** The grouper: ties between dates, missing names, dropped messages *)

Section LatestFacts.

Variable lib : Lib.

Lemma first_newest_older (ms : list message) (m0 m : message) (t0 t : N) :
  first_newest lib ms m0 t0 ->
  parsed_date lib (locals_of lib m) = Some t -> (t0 < t)%N ->
  first_newest lib (ms ++ [m]) m t.
Proof.
  intros (pre & post & Hms & Hp0 & Hpre & Hpost) Hp Hlt.
  exists ms, []. split; [reflexivity|]. split; [exact Hp|]. split.
  - intros m' t' Hin Hp'. subst ms.
    apply in_app_or in Hin as [Hin|[<-|Hin]].
    + specialize (Hpre _ _ Hin Hp'). lia.
    + rewrite Hp0 in Hp'. inversion Hp'. lia.
    + specialize (Hpost _ _ Hin Hp'). lia.
  - intros m' t' [].
Qed.

Lemma first_newest_kept (ms : list message) (m0 m : message) (t0 : N) :
  first_newest lib ms m0 t0 ->
  (forall t, parsed_date lib (locals_of lib m) = Some t -> (t <= t0)%N) ->
  first_newest lib (ms ++ [m]) m0 t0.
Proof.
  intros (pre & post & Hms & Hp0 & Hpre & Hpost) Hle.
  exists pre, (post ++ [m])%list. subst ms.
  split; [now rewrite <- app_assoc|]. split; [exact Hp0|]. split; [exact Hpre|].
  intros m' t' Hin Hp'. apply in_app_or in Hin as [Hin|[<-|[]]].
  - now apply (Hpost _ _ Hin).
  - now apply Hle.
Qed.

Lemma follows_group_step (ms : list message) (m : message) (g : group) :
  follows_first_newest lib ms g ->
  follows_first_newest lib (ms ++ [m]) (group_step lib m g).
Proof.
  unfold follows_first_newest, group_step, note_date.
  destruct (parsed_date lib (locals_of lib m)) as [t|] eqn:Hp;
    cbn [latest_date subject sender_display count_message].
  - destruct (latest_date g) as [t0|] eqn:Hd.
    + intros (m0 & Hfirst & Hs & Hn).
      destruct (N.ltb t0 t) eqn:Hlt; cbn [latest_date subject sender_display count_message].
      * apply N.ltb_lt in Hlt. exists m. repeat split.
        now apply (first_newest_older ms m0 m t0 t).
      * apply N.ltb_ge in Hlt. rewrite Hd. exists m0.
        split; [|split; assumption].
        apply first_newest_kept; [exact Hfirst|].
        intros t' Ht'. rewrite Hp in Ht'. inversion Ht'. now subst.
    + intros Hall. cbn [latest_date subject sender_display].
      exists m. repeat split. exists ms, []. repeat split; try assumption.
      * intros m' t' Hin Hp'. rewrite (Hall _ Hin) in Hp'. discriminate.
      * intros m' t' [].
  - destruct (latest_date g) as [t0|].
    + intros (m0 & Hfirst & Hs & Hn). exists m0. split; [|split; assumption].
      apply first_newest_kept; [exact Hfirst|].
      intros t' Ht'. rewrite Hp in Ht'. discriminate.
    + intros Hall m' Hin. apply in_app_or in Hin as [Hin|[<-|[]]]; auto.
Qed.

Lemma follows_summary (ms : list message) :
  follows_first_newest lib ms (summary lib ms).
Proof.
  unfold summary. induction ms as [|m ms IH] using rev_ind.
  - intros m [].
  - rewrite absorb_snoc. now apply follows_group_step.
Qed.

End LatestFacts.

(** X15.  Whenever the grouper returns, a returned group with a latest date
    takes its latest date, subject and display sender from the first of its
    messages that has the greatest parsed date: every earlier message of the
    group is strictly older, so that among messages with equal dates the one
    processed first is kept. *)
Theorem X15_ties_keep_first_message (lib : Lib) (messages : list message)
        (out : groups_t) (log : list warning) (k : string) (d : group) (t : N) :
  group_emails lib messages = Ok (out, log) ->
  In (k, d) out ->
  latest_date d = Some t ->
  exists pre m post,
    attributed_to lib k messages = (pre ++ m :: post)%list /\
    parsed_date lib (locals_of lib m) = Some t /\
    subject d = Some (msg_subject (locals_of lib m)) /\
    sender_display d = Some (sender (locals_of lib m)) /\
    (forall m' t', In m' pre ->
                   parsed_date lib (locals_of lib m') = Some t' -> (t' < t)%N) /\
    (forall m' t', In m' post ->
                   parsed_date lib (locals_of lib m') = Some t' -> (t' <= t)%N).
Proof.
  intros Hout Hin Hd.
  destruct (group_emails_inv lib _ _ _ Hout) as (groups & Hrun & ->).
  apply In_filter_groups in Hin as [Hin _].
  destruct (entry_is_summary lib _ _ _ _ _ Hrun Hin) as [_ Heq].
  pose proof (follows_summary lib (attributed_to lib k messages)) as H.
  rewrite <- Heq in H. unfold follows_first_newest in H. rewrite Hd in H.
  destruct H as (m & (pre & post & Hms & Hp & Hpre & Hpost) & Hs & Hn).
  exists pre, m, post. repeat split; assumption.
Qed.

(** Two messages of one sender with the same date: the first is kept. *)
Lemma X15_ties_keep_first_message_witness :
  exists pre m post,
    attributed_to sample_lib "a@x.com"
      [mk_message "m1" [hdr "From" "a@x.com"; hdr "Subject" "first";
                        hdr "Date" "Mon, 01 Jan 2024 00:00:00 +0000"];
       mk_message "m2" [hdr "From" "a@x.com"; hdr "Subject" "second";
                        hdr "Date" "Mon, 01 Jan 2024 00:00:00 +0000"]]
    = (pre ++ m :: post)%list /\
    Some "first" = Some (msg_subject (locals_of sample_lib m)).
Proof.
  destruct (X15_ties_keep_first_message sample_lib
              [mk_message "m1" [hdr "From" "a@x.com"; hdr "Subject" "first";
                                hdr "Date" "Mon, 01 Jan 2024 00:00:00 +0000"];
               mk_message "m2" [hdr "From" "a@x.com"; hdr "Subject" "second";
                                hdr "Date" "Mon, 01 Jan 2024 00:00:00 +0000"]]
              [("a@x.com",
                {| count := 2; ids := [Some "m1"; Some "m2"];
                   latest_date := Some jan_1_2024; subject := Some "first";
                   sender_display := Some "a@x.com";
                   has_list_unsubscribe := false |})]
              [] "a@x.com"
              {| count := 2; ids := [Some "m1"; Some "m2"];
                 latest_date := Some jan_1_2024; subject := Some "first";
                 sender_display := Some "a@x.com";
                 has_list_unsubscribe := false |}
              jan_1_2024)
    as (pre & m & post & Hms & _ & Hs & _);
    [vm_compute; reflexivity | now left | reflexivity |].
  exists pre, m, post. split; [exact Hms | exact Hs].
Defined.

(** X10.  If some header of some input message has no name, the grouper does
    not return: an exception leaves [group_emails]. *)
Theorem X10_header_without_name_aborts (lib : Lib) (messages : list message)
        (m : message) (h : header) :
  In m messages ->
  In h (headers_of m) ->
  name h = None ->
  exists e, group_emails lib messages = Raise e.
Proof.
  intros Hm Hh Hname.
  apply (group_all_raises lib messages m Hm).
  unfold read_headers.
  apply (for_each_raises (header_step lib) (headers_of m) h Hh).
  intros st. exists AttributeError. unfold header_step. now rewrite Hname.
Qed.

(** A sound message followed by one whose only header lacks its name. *)
Lemma X10_header_without_name_aborts_witness :
  exists e,
    group_emails sample_lib
      [mk_message "m1" [hdr "From" "a@x.com"];
       mk_message "m2" [{| name := None; value := Some "a@x.com" |}]]
    = Raise e.
Proof.
  apply (X10_header_without_name_aborts sample_lib _
           (mk_message "m2" [{| name := None; value := Some "a@x.com" |}])
           {| name := None; value := Some "a@x.com" |}).
  - right. now left.
  - now left.
  - reflexivity.
Defined.

(** X11.  When the header loop of a message completes, the message is
    dropped exactly when it has no From header or the address extracted
    from its last From header is the empty string; otherwise it is counted
    under that address. *)
Theorem X11_dropped_iff_no_address (lib : Lib) (m : message) (l : locals) :
  read_headers lib m = Ok l ->
  key_of lib m =
  match last_named "from" (headers_of m) with
  | None => None
  | Some _ =>
      if truthy (extract_email lib (sender l))
      then Some (extract_email lib (sender l))
      else None
  end.
Proof.
  intros Hread. rewrite (key_of_read lib _ _ Hread). unfold kept_key.
  destruct (read_headers_last_wins lib _ _ Hread) as (Hf & _).
  destruct (last_named "from" (headers_of m)); destruct Hf as [_ ->]; reflexivity.
Qed.

(** A message whose last From value is empty, after a sound one. *)
Lemma X11_dropped_iff_no_address_witness :
  key_of sample_lib
    (mk_message "m" [hdr "From" "a@x.com"; hdr "From" ""]) = None.
Proof.
  rewrite (X11_dropped_iff_no_address sample_lib
             (mk_message "m" [hdr "From" "a@x.com"; hdr "From" ""])
             {| sender := ""; sender_email := Some "";
                msg_subject := "No Subject"; date_str := None;
                msg_has_list_unsubscribe := false |});
    vm_compute; reflexivity.
Defined.

(** ** The address pattern *)

Lemma lazy_until_gt_sound (s g : string) :
  lazy_until_gt s = Some g ->
  (exists post, s = g ++ ">" ++ post) /\
  contains_char ">" g = false /\ contains_char newline g = false.
Proof.
  revert g. induction s as [|c s IH]; intros g; simpl; [discriminate|].
  destruct (Ascii.eqb c ">") eqn:Egt.
  - intros H. inversion H; subst g. apply Ascii.eqb_eq in Egt. subst c.
    split; [now exists s | split; reflexivity].
  - destruct (Ascii.eqb c newline) eqn:Enl; [discriminate|].
    destruct (lazy_until_gt s) as [g'|]; [|discriminate].
    intros H. inversion H; subst g.
    destruct (IH g' eq_refl) as ([post ->] & Hgt & Hnl).
    split; [now exists post|]. cbn [contains_char].
    rewrite (Ascii.eqb_sym ">" c), Egt, Hgt.
    rewrite (Ascii.eqb_sym newline c), Enl, Hnl.
    split; reflexivity.
Qed.

Lemma lazy_until_gt_complete (g post : string) :
  contains_char newline g = false ->
  lazy_until_gt (g ++ ">" ++ post) <> None.
Proof.
  induction g as [|c g IH]; [discriminate|].
  cbn [contains_char]. intros H. apply orb_false_iff in H as [Hc Hg].
  change (String c g ++ ">" ++ post) with (String c (g ++ ">" ++ post)).
  cbn [lazy_until_gt].
  destruct (Ascii.eqb c ">"); [discriminate|].
  rewrite (Ascii.eqb_sym c newline), Hc.
  destruct (lazy_until_gt (g ++ ">" ++ post)) eqn:E; [discriminate|].
  now apply IH in Hg.
Qed.

(** X12.  A match of the address pattern returns a text that stands between
    an opening and a closing angle bracket of the searched string and holds
    neither a closing bracket nor a newline; and there is no match only if
    every bracketed part of the string holds a newline. *)
Theorem X12_pattern_search_spec (s : string) :
  match sender_email_pattern_search s with
  | Some g =>
      (exists pre post, s = pre ++ "<" ++ g ++ ">" ++ post) /\
      contains_char ">" g = false /\ contains_char newline g = false
  | None =>
      forall pre g post,
        s = pre ++ "<" ++ g ++ ">" ++ post -> contains_char newline g = true
  end.
Proof.
  induction s as [|c s IH]; simpl.
  - intros [|x pre] g post H; discriminate H.
  - assert (Hrest :
        match sender_email_pattern_search s with
        | Some g =>
            (exists pre post, String c s = pre ++ "<" ++ g ++ ">" ++ post) /\
            contains_char ">" g = false /\ contains_char newline g = false
        | None =>
            lazy_until_gt s = None \/ Ascii.eqb c "<" = false ->
            forall pre g post,
              String c s = pre ++ "<" ++ g ++ ">" ++ post ->
              contains_char newline g = true
        end).
    { destruct (sender_email_pattern_search s) as [g|].
      - destruct IH as ((pre & post & ->) & Hgt & Hnl).
        split; [now exists (String c pre), post | now split].
      - intros Hhere [|x pre] g post H; simpl in H; inversion H; subst.
        + destruct Hhere as [Hlazy|Hc]; [|discriminate].
          destruct (contains_char newline g) eqn:E; [reflexivity|].
          now apply (lazy_until_gt_complete g post) in E.
        + now apply (IH pre g post). }
    destruct (Ascii.eqb c "<") eqn:Ec.
    + destruct (lazy_until_gt s) as [g|] eqn:El.
      * apply Ascii.eqb_eq in Ec. subst c.
        destruct (lazy_until_gt_sound s g El) as ([post ->] & Hgt & Hnl).
        split; [now exists "", post | now split].
      * destruct (sender_email_pattern_search s); [exact Hrest|].
        apply Hrest. now left.
    + destruct (sender_email_pattern_search s); [exact Hrest|].
      apply Hrest. now right.
Qed.

(** ** The ranker: ties and the fallback *)

Section StableFacts.

Context {A K : Type}.
Variable ltb : K -> K -> bool.
Variable key : A -> K.
Variable p : A -> bool.

(** Two items that [p] selects have keys that do not differ. *)
Hypothesis same_class :
  forall x y, p x = true -> p y = true -> ltb (key y) (key x) = false.

Lemma filter_insert_stable (x : A) (l : list A) :
  filter p (insert_stable ltb key x l) = filter p (x :: l).
Proof.
  induction l as [|y l IH]; [reflexivity|].
  cbn [insert_stable]. destruct (ltb (key y) (key x)) eqn:E; [|reflexivity].
  cbn [filter] in *. rewrite IH.
  destruct (p x) eqn:Hx; [|reflexivity].
  destruct (p y) eqn:Hy; [|reflexivity].
  rewrite (same_class x y Hx Hy) in E. discriminate.
Qed.

Lemma filter_sort_stable (l : list A) :
  filter p (sort_stable ltb key l) = filter p l.
Proof.
  induction l as [|x l IH]; [reflexivity|].
  cbn [sort_stable]. rewrite filter_insert_stable. cbn [filter].
  now rewrite IH.
Qed.

Lemma filter_sorted (l : list A) (reverse : bool) :
  filter p (sorted ltb key l reverse) = filter p l.
Proof.
  unfold sorted. destruct reverse; [|apply filter_sort_stable].
  now rewrite filter_rev, filter_sort_stable, filter_rev, rev_involutive.
Qed.

End StableFacts.

Lemma has_keys_spec (c : nat) (d : N) (item : string * group) :
  has_keys c d item = true ->
  count (snd item) = c /\ or_min (latest_date (snd item)) = d.
Proof.
  unfold has_keys. intros H. apply andb_true_iff in H as [Hc Hd].
  apply Nat.eqb_eq in Hc. apply N.eqb_eq in Hd. now split.
Qed.

(** X16.  Ranking is stable: for either criterion, and for the fallback, the
    entries that agree on both sort keys come out in the order in which the
    mapping holds them. *)
Theorem X16_sort_groups_stable (groups : groups_t) (criteria : string)
        (c : nat) (d : N) :
  filter (has_keys c d) (fst (sort_groups groups criteria))
  = filter (has_keys c d) groups.
Proof.
  unfold sort_groups.
  destruct (String.eqb criteria "count"); [|destruct (String.eqb criteria "date")];
    cbn [fst]; apply filter_sorted; intros x y Hx Hy;
    apply has_keys_spec in Hx as [Hx1 Hx2], Hy as [Hy1 Hy2].
  - apply count_date_ltb_false. unfold count_key. simpl. lia.
  - apply date_count_ltb_false. unfold date_key. simpl. lia.
  - apply count_date_ltb_false. unfold count_key. simpl. lia.
Qed.

(** A text between brackets that holds a newline is not matched. *)
Lemma X12_pattern_search_spec_witness :
  contains_char newline (String "a" (String newline "b")) = true.
Proof.
  pose proof (X12_pattern_search_spec
                (String "<" (String "a" (String newline "b>")))) as H.
  cbn in H. apply (H "" (String "a" (String newline "b")) ""). reflexivity.
Defined.

(** ** The display loop of [main] *)

Section MainFacts.

Variable lib : Lib.
Variable strftime : N -> string.

Lemma sort_groups_perm (groups : groups_t) (criteria : string) :
  Permutation (fst (sort_groups groups criteria)) groups.
Proof.
  unfold sort_groups.
  destruct (String.eqb criteria "count"); [|destruct (String.eqb criteria "date")];
    cbn [fst]; apply sorted_perm.
Qed.

Lemma slice_to_prefix {A : Type} (n : Z) (l : list A) :
  exists k, slice_to n l = firstn k l /\
            k = if (0 <=? n)%Z then Z.to_nat n
                else List.length l - Z.to_nat (- n).
Proof.
  unfold slice_to. destruct (0 <=? n)%Z eqn:E; eexists; split; try reflexivity.
  apply Z.leb_gt in E. lia.
Qed.

Lemma panels_from_map (query : string) (items : list (string * group)) :
  forall i,
    map panel_sender_email (panels_from strftime query i items) = map fst items /\
    map panel_link (panels_from strftime query i items)
    = map (fun item => search_url query (fst item)) items /\
    map panel_count (panels_from strftime query i items)
    = map (fun item => count (snd item)) items /\
    map panel_number (panels_from strftime query i items)
    = seq (i + 1) (List.length items).
Proof.
  induction items as [|[k d] items IH]; intros i; [repeat split|].
  destruct (IH (S i)) as (H1 & H2 & H3 & H4).
  cbn [panels_from map List.length seq fst snd].
  rewrite H1, H2, H3, H4. repeat split.
Qed.

Lemma main_display_inv (query sort : string) (num_results : Z)
      (messages : option (list message)) (log : list warning)
      (sort_log : list sort_warning) (panels : list panel) :
  main_display lib strftime query sort num_results messages
  = Ok (Displayed log sort_log panels) ->
  exists msgs out,
    messages = Some msgs /\
    group_emails lib msgs = Ok (out, log) /\
    panels = panels_from strftime query 0
               (slice_to num_results (fst (sort_groups out sort))).
Proof.
  unfold main_display. destruct messages as [[|m ms]|]; try discriminate.
  destruct (group_emails lib (m :: ms)) as [[out log0]|e] eqn:Hout;
    cbn [bind fst snd]; [|discriminate].
  destruct out as [|item out]; [discriminate|].
  intros H. inversion H; subst. exists (m :: ms), (item :: out).
  split; [reflexivity|]. split; [exact Hout | reflexivity].
Qed.

Lemma NoDup_firstn {A : Type} (k : nat) (l : list A) :
  NoDup l -> NoDup (firstn k l).
Proof.
  intros H. rewrite <- (firstn_skipn k l) in H.
  now apply NoDup_app_remove_r in H.
Qed.

Lemma NoDup_map_injective {A B : Type} (f : A -> B) (l : list A) :
  (forall x y, f x = f y -> x = y) -> NoDup l -> NoDup (map f l).
Proof.
  intros Hinj. induction 1 as [|x l Hx Hl IH]; simpl; constructor; [|exact IH].
  intros Hin. apply in_map_iff in Hin as (y & Hy & Hin).
  apply Hinj in Hy. now subst.
Qed.

Lemma returned_keys_NoDup (messages : list message) (out : groups_t)
      (log : list warning) :
  group_emails lib messages = Ok (out, log) -> NoDup (map fst out).
Proof.
  intros Hout. destruct (group_emails_inv lib _ _ _ Hout) as (groups & Hrun & ->).
  apply NoDup_keys_filter, (group_all_NoDup lib _ _ _ Hrun).
Qed.

End MainFacts.

(** X21.  Whenever [main] displays panels, their sender addresses are
    pairwise distinct and so are their search links. *)
Theorem X21_panels_have_distinct_links (lib : Lib) (strftime : N -> string)
        (query sort : string) (num_results : Z)
        (messages : option (list message)) (log : list warning)
        (sort_log : list sort_warning) (panels : list panel) :
  main_display lib strftime query sort num_results messages
  = Ok (Displayed log sort_log panels) ->
  NoDup (map panel_sender_email panels) /\ NoDup (map panel_link panels).
Proof.
  intros H.
  destruct (main_display_inv lib strftime _ _ _ _ _ _ _ H)
    as (msgs & out & _ & Hout & ->).
  destruct (panels_from_map strftime query
              (slice_to num_results (fst (sort_groups out sort))) 0)
    as (He & Hl & _).
  rewrite He, Hl.
  assert (Hnd : NoDup (map fst (slice_to num_results (fst (sort_groups out sort))))).
  { destruct (slice_to_prefix num_results (fst (sort_groups out sort)))
      as (k & -> & _).
    rewrite <- firstn_map. apply NoDup_firstn.
    apply (Permutation_NoDup (l := map fst out)).
    - apply Permutation_map. symmetry. apply sort_groups_perm.
    - apply (returned_keys_NoDup lib msgs out log Hout). }
  split; [exact Hnd|].
  rewrite <- (map_map fst (search_url query)).
  apply NoDup_map_injective; [|exact Hnd].
  intros x y Hxy. unfold search_url, encoded_query in Hxy.
  apply append_cancel_l, quote_plus_injective in Hxy.
  unfold full_filter_string, generate_filter_query in Hxy.
  apply append_cancel_l in Hxy. simpl in Hxy. inversion Hxy as [Hxy'].
  now apply append_cancel_r in Hxy'.
Qed.

(** The sample run under the query "is:unread", ranked by count. *)
Lemma X21_panels_have_distinct_links_witness :
  NoDup [search_url "is:unread" "a@x.com";
         search_url "is:unread" "ann@example.com"].
Proof.
  apply (X21_panels_have_distinct_links sample_lib sample_strftime
           "is:unread" "count" 20 (Some ex_messages) ex_log []
           (panels_from sample_strftime "is:unread" 0 ex_groups)).
  vm_compute. reflexivity.
Defined.

Section PanelFacts.

Variable lib : Lib.
Variable strftime : N -> string.

Lemma panels_from_member (query : string) (items : list (string * group))
      (p : panel) :
  forall i, In p (panels_from strftime query i items) ->
            exists j k d, In (k, d) items /\ p = make_panel strftime query j k d.
Proof.
  induction items as [|[k d] items IH]; intros i Hin; [destruct Hin|].
  destruct Hin as [<-|Hin].
  - exists i, k, d. split; [now left | reflexivity].
  - destruct (IH _ Hin) as (j & k' & d' & Hin' & ->).
    exists j, k', d'. split; [now right | reflexivity].
Qed.



(** A panel of a run stands for a returned group. *)
Lemma displayed_panel_group (query sort : string) (num_results : Z)
      (msgs : list message) (log : list warning)
      (sort_log : list sort_warning) (panels : list panel) (p : panel) :
  main_display lib strftime query sort num_results (Some msgs)
  = Ok (Displayed log sort_log panels) ->
  In p panels ->
  exists out j d,
    group_emails lib msgs = Ok (out, log) /\
    In (panel_sender_email p, d) out /\
    p = make_panel strftime query j (panel_sender_email p) d.
Proof.
  intros H Hp.
  destruct (main_display_inv lib strftime _ _ _ _ _ _ _ H)
    as (msgs' & out & Hm & Hout & ->).
  inversion Hm; subst msgs'.
  destruct (panels_from_member query _ p 0 Hp) as (j & k & d & Hin & ->).
  exists out, j, d. split; [exact Hout|]. split; [|reflexivity].
  cbn [make_panel panel_sender_email].
  destruct (slice_to_prefix num_results (fst (sort_groups out sort)))
    as (n & Hn & _).
  rewrite Hn in Hin.
  apply (Permutation_in _ (sort_groups_perm out sort)).
  rewrite <- (firstn_skipn n (fst (sort_groups out sort))).
  apply in_or_app. now left.
Qed.

End PanelFacts.



(** X20.  Whenever [main] displays panels, the panel of a group none of
    whose messages has a parsed date shows the text "None" as sender and as
    subject and "N/A" as date: the sender address is not used in place of
    the missing display name. *)
Theorem X20_undated_group_shows_None (lib : Lib) (strftime : N -> string)
        (query sort : string) (num_results : Z) (msgs : list message)
        (log : list warning) (sort_log : list sort_warning)
        (panels : list panel) (p : panel) :
  main_display lib strftime query sort num_results (Some msgs)
  = Ok (Displayed log sort_log panels) ->
  In p panels ->
  (forall m, In m (attributed_to lib (panel_sender_email p) msgs) ->
             parsed_date lib (locals_of lib m) = None) ->
  panel_sender p = "None" /\ panel_subject p = "None" /\ panel_recent p = "N/A".
Proof.
  intros H Hp Hnone.
  destruct (displayed_panel_group lib strftime _ _ _ _ _ _ _ p H Hp)
    as (out & j & d & Hout & Hin & Hmk).
  destruct (group_emails_inv lib _ _ _ Hout) as (groups & Hrun & ->).
  apply In_filter_groups in Hin as [Hin _].
  destruct (entry_is_summary lib _ _ _ _ _ Hrun Hin) as [_ Hd].
  pose proof (latest_summary lib (attributed_to lib (panel_sender_email p) msgs))
    as Hsync.
  rewrite <- Hd in Hsync.
  destruct Hsync as [(Hl & Hs & Hn & _) | (m & t & Hm & Hpm & _)].
  - rewrite Hmk. cbn [make_panel panel_sender panel_subject panel_recent].
    now rewrite Hl, Hs, Hn.
  - rewrite (Hnone m Hm) in Hpm. discriminate.
Qed.

(** The sample run: the group of "ann@example.com" has no dated message. *)
Lemma X20_undated_group_shows_None_witness :
  panel_sender
    (make_panel sample_strftime "is:unread" 1 "ann@example.com"
       {| count := 1; ids := [Some "m4"]; latest_date := None;
          subject := None; sender_display := None;
          has_list_unsubscribe := true |}) = "None".
Proof.
  apply (X20_undated_group_shows_None sample_lib sample_strftime
           "is:unread" "count" 20 ex_messages ex_log []
           (panels_from sample_strftime "is:unread" 0 ex_groups)).
  - vm_compute. reflexivity.
  - right. now left.
  - intros m [<-|[]]. vm_compute. reflexivity.
Defined.

(** ** Fetching *)

Example sample_fetch :
  fetch_unread_emails sample_service "is:unread" 500
  = (Fetched [mk_message "m1" [hdr "From" "a@x.com"];
              mk_message "m3" [hdr "From" "a@x.com"];
              mk_message "m4" [hdr "From" "a@x.com"]],
     [{| req_q := "is:unread"; req_page_token := None; req_max_results := 100 |};
      {| req_q := "is:unread"; req_page_token := Some "p2";
         req_max_results := 100 |}]).
Proof. vm_compute. reflexivity. Qed.

Section FetchFacts.

Variable service : Service.
Variable query : string.
Variable max_results : Z.

Lemma list_loop_enough (fuel : nat) :
  forall n all_messages page_token fetched_count,
    (max_results - fetched_count <= Z.of_nat fuel)%Z ->
    fst (list_loop service query max_results fuel n all_messages page_token
           fetched_count) <> OutOfFuel /\
    (forall fuel', fuel <= fuel' ->
       list_loop service query max_results fuel' n all_messages page_token
         fetched_count
       = list_loop service query max_results fuel n all_messages page_token
           fetched_count) /\
    (Z.of_nat (List.length
                 (snd (list_loop service query max_results fuel n all_messages
                         page_token fetched_count)))
     <= Z.max 0 (max_results - fetched_count))%Z.
Proof.
  induction fuel as [|fuel IH]; intros n all tok fetched Hfuel.
  - assert (E : (fetched <? max_results)%Z = false) by (apply Z.ltb_ge; lia).
    split; [|split].
    + cbn [list_loop]. rewrite E. discriminate.
    + intros [|fuel'] _; cbn [list_loop]; now rewrite E.
    + cbn [list_loop]. rewrite E. simpl. lia.
  - cbn [list_loop].
    destruct (fetched <? max_results)%Z eqn:E.
    2:{ split; [discriminate|]. split; [|simpl; lia].
        intros [|fuel'] _; cbn [list_loop]; now rewrite E. }
    apply Z.ltb_lt in E.
    split; [|split].
    + destruct (messages_list service n _) as [results|]; [|discriminate].
      destruct (resp_messages results) as [[|info ms]|]; try discriminate.
      destruct (truthy_opt (resp_next_page_token results)); [|discriminate].
      cbn [fst]. apply IH. cbn [List.length]. lia.
    + intros [|fuel'] Hle; [lia|]. cbn [list_loop].
      apply Z.ltb_lt in E. rewrite E.
      destruct (messages_list service n _) as [results|]; [|reflexivity].
      destruct (resp_messages results) as [[|info ms]|]; try reflexivity.
      destruct (truthy_opt (resp_next_page_token results)); [|reflexivity].
      apply Z.ltb_lt in E.
      destruct (IH (S n) (all ++ info :: ms)%list (resp_next_page_token results)
                  (fetched + Z.of_nat (List.length (info :: ms)))%Z)
        as (_ & Hsame & _); [cbn [List.length]; lia|].
      rewrite (Hsame fuel'); [reflexivity | lia].
    + destruct (messages_list service n _) as [results|]; [|simpl; lia].
      destruct (resp_messages results) as [[|info ms]|]; try (simpl; lia).
      destruct (truthy_opt (resp_next_page_token results)); [|simpl; lia].
      destruct (IH (S n) (all ++ info :: ms)%list (resp_next_page_token results)
                  (fetched + Z.of_nat (List.length (info :: ms)))%Z)
        as (_ & _ & Hlen); [cbn [List.length]; lia|].
      cbn [snd List.length] in *. lia.
Qed.

Lemma list_loop_requests (fuel : nat) :
  forall n all_messages page_token fetched_count,
    (0 <= fetched_count)%Z ->
    Forall (fun r => req_q r = query /\
                     (1 <= req_max_results r <= 100)%Z /\
                     (req_max_results r <= max_results)%Z)
           (snd (list_loop service query max_results fuel n all_messages
                   page_token fetched_count)).
Proof.
  induction fuel as [|fuel IH]; intros n all tok fetched Hpos; cbn [list_loop];
    destruct (fetched <? max_results)%Z eqn:E; try constructor.
  apply Z.ltb_lt in E.
  assert (Hr : req_q {| req_q := query; req_page_token := tok;
                        req_max_results := Z.min 100 (max_results - fetched) |}
               = query /\
               (1 <= Z.min 100 (max_results - fetched) <= 100)%Z /\
               (Z.min 100 (max_results - fetched) <= max_results)%Z)
    by (split; [reflexivity | lia]).
  destruct (messages_list service n _) as [results|];
    [|constructor; [exact Hr | constructor]].
  destruct (resp_messages results) as [[|info ms]|];
    try (constructor; [exact Hr | constructor]).
  destruct (truthy_opt (resp_next_page_token results));
    [|constructor; [exact Hr | constructor]].
  cbn [snd]. constructor; [exact Hr|]. apply IH. lia.
Qed.

Lemma list_loop_first_request (fuel : nat) (n : nat)
      (all_messages : list message_info) (page_token : option string)
      (fetched_count : Z) :
  match snd (list_loop service query max_results fuel n all_messages page_token
               fetched_count) with
  | r :: _ => req_page_token r = page_token
  | [] => True
  end.
Proof.
  destruct fuel as [|fuel]; cbn [list_loop];
    destruct (fetched_count <? max_results)%Z; try exact I.
  destruct (messages_list service n _) as [results|]; [|reflexivity].
  destruct (resp_messages results) as [[|info ms]|]; try reflexivity.
  destruct (truthy_opt (resp_next_page_token results)); reflexivity.
Qed.

Lemma list_loop_bound (fuel : nat) :
  (forall n r resp ms,
      messages_list service n r = Some resp ->
      resp_messages resp = Some ms ->
      (Z.of_nat (List.length ms) <= req_max_results r)%Z) ->
  forall n all_messages page_token fetched_count all',
    fetched_count = Z.of_nat (List.length all_messages) ->
    (fetched_count <= Z.max 0 max_results)%Z ->
    fst (list_loop service query max_results fuel n all_messages page_token
           fetched_count) = Listed all' ->
    (Z.of_nat (List.length all') <= Z.max 0 max_results)%Z.
Proof.
  intros Hcap.
  induction fuel as [|fuel IH]; intros n all tok fetched all' Hf Hle;
    cbn [list_loop]; destruct (fetched <? max_results)%Z eqn:E;
    try discriminate;
    try (intros H; inversion H; subst; lia).
  apply Z.ltb_lt in E.
  destruct (messages_list service n _) as [results|] eqn:Hcall; [|discriminate].
  destruct (resp_messages results) as [[|info ms]|] eqn:Hms;
    try (intros H; inversion H; subst; lia).
  pose proof (Hcap _ _ _ _ Hcall Hms) as Hlen. cbn [req_max_results] in Hlen.
  destruct (truthy_opt (resp_next_page_token results)).
  - cbn [fst]. apply IH.
    + rewrite length_app. lia.
    + lia.
  - intros H. inversion H; subst. rewrite length_app. lia.
Qed.

Lemma fetch_details_spec (infos : list message_info) :
  forall i acc d,
    fetch_details service i infos acc = Some d ->
    List.length d <= List.length acc + List.length infos /\
    forall msg, In msg d ->
                In msg acc \/
                exists j msg_id,
                  In {| info_id := Some msg_id |} infos /\
                  messages_get service j msg_id = Some msg.
Proof.
  induction infos as [|[[msg_id|]] infos IH]; intros i acc d;
    cbn [fetch_details info_id].
  - intros H. inversion H; subst. split; [simpl; lia | now left].
  - destruct (messages_get service i msg_id) as [msg|] eqn:Hget; intros H;
      destruct (IH _ _ _ H) as [Hlen Hfrom]; split.
    + rewrite length_app in Hlen. simpl in *. lia.
    + intros msg' Hin. destruct (Hfrom msg' Hin) as [Hacc|(j & id' & Hid & Hj)].
      * apply in_app_or in Hacc as [Hacc|[<-|[]]]; [now left|].
        right. exists i, msg_id. split; [now left | exact Hget].
      * right. exists j, id'. split; [now right | exact Hj].
    + simpl. lia.
    + intros msg' Hin. destruct (Hfrom msg' Hin) as [Hacc|(j & id' & Hid & Hj)];
        [now left|].
      right. exists j, id'. split; [now right | exact Hj].
  - discriminate.
Qed.

Lemma fetch_details_total (infos : list message_info) :
  Forall (fun info => info_id info <> None) infos ->
  forall i acc, exists d, fetch_details service i infos acc = Some d.
Proof.
  induction 1 as [|info infos Hid _ IH]; intros i acc; cbn [fetch_details].
  - now exists acc.
  - destruct (info_id info) as [msg_id|]; [|contradiction].
    destruct (messages_get service i msg_id); apply IH.
Qed.

Lemma fetch_details_exact (infos : list message_info) :
  forall i acc d,
    fetch_details service i infos acc = Some d ->
    d = (acc ++ successful_details service i infos)%list /\
    Forall (fun info => info_id info <> None) infos.
Proof.
  induction infos as [|[[msg_id|]] infos IH]; intros i acc d;
    cbn [fetch_details successful_details info_id].
  - intros H. inversion H; subst. split; [now rewrite app_nil_r | constructor].
  - destruct (messages_get service i msg_id) as [msg|]; intros H;
      destruct (IH _ _ _ H) as [-> Hids]; split.
    + now rewrite <- app_assoc.
    + constructor; [discriminate | exact Hids].
    + reflexivity.
    + constructor; [discriminate | exact Hids].
  - discriminate.
Qed.

End FetchFacts.

(** X22.  The listing loop ends within [max_results] turns: with that much
    fuel or more the fetch gives one and the same result, which is never
    the out-of-fuel mark, and at most [max_results] list requests are
    sent. *)
Theorem X22_fetch_terminates (service : Service) (query : string)
        (max_results : Z) (fuel : nat) :
  Z.to_nat max_results <= fuel ->
  fetch_with_fuel service query max_results fuel
  = fetch_unread_emails service query max_results /\
  fst (fetch_unread_emails service query max_results) <> FetchOutOfFuel /\
  List.length (snd (fetch_unread_emails service query max_results))
  <= Z.to_nat max_results.
Proof.
  intros Hfuel. unfold fetch_unread_emails, fetch_with_fuel.
  destruct (list_loop_enough service query max_results (Z.to_nat max_results)
              0 [] None 0%Z) as (Hne & Hsame & Hlen); [lia|].
  rewrite (Hsame fuel Hfuel). split; [reflexivity|]. split.
  - cbn [fst].
    destruct (fst (list_loop service query max_results (Z.to_nat max_results)
                     0 [] None 0%Z)) as [[|info all]| |];
      try discriminate; [|contradiction].
    destruct (fetch_details service 0 (info :: all) []); discriminate.
  - cbn [snd]. lia.
Qed.

(** The sample service with fuel 600 for a bound of 500. *)
Lemma X22_fetch_terminates_witness :
  fetch_with_fuel sample_service "is:unread" 500 600
  = fetch_unread_emails sample_service "is:unread" 500.
Proof.
  apply (X22_fetch_terminates sample_service "is:unread" 500 600).
  lia.
Defined.

(** X23.  Every list request carries the query and asks for at least 1 and
    at most 100 messages, never for more than [max_results]; the first
    request carries no page token. *)
Theorem X23_list_requests_are_bounded (service : Service) (query : string)
        (max_results : Z) :
  Forall (fun r => req_q r = query /\
                   (1 <= req_max_results r <= 100)%Z /\
                   (req_max_results r <= max_results)%Z)
         (snd (fetch_unread_emails service query max_results)) /\
  match snd (fetch_unread_emails service query max_results) with
  | r :: _ => req_page_token r = None
  | [] => True
  end.
Proof.
  unfold fetch_unread_emails, fetch_with_fuel. cbn [snd]. split.
  - apply list_loop_requests. lia.
  - apply list_loop_first_request.
Qed.

(** X24.  If the service never returns more messages than a request allows,
    the fetch returns at most [max_results] messages (none when
    [max_results] is negative). *)
Theorem X24_fetch_respects_max_results (service : Service) (query : string)
        (max_results : Z) (detailed_messages : list message) :
  (forall n r resp ms,
      messages_list service n r = Some resp ->
      resp_messages resp = Some ms ->
      (Z.of_nat (List.length ms) <= req_max_results r)%Z) ->
  fst (fetch_unread_emails service query max_results)
  = Fetched detailed_messages ->
  (Z.of_nat (List.length detailed_messages) <= Z.max 0 max_results)%Z.
Proof.
  intros Hcap. unfold fetch_unread_emails, fetch_with_fuel. cbn [fst].
  destruct (fst (list_loop service query max_results (Z.to_nat max_results)
                   0 [] None 0%Z)) as [all| |] eqn:Hlist; try discriminate.
  pose proof (list_loop_bound service query max_results _ Hcap 0 [] None 0%Z all
                eq_refl ltac:(lia) Hlist) as Hall.
  destruct all as [|info all].
  - intros H. inversion H; subst. simpl. lia.
  - destruct (fetch_details service 0 (info :: all) []) as [d|] eqn:Hd;
      [|discriminate].
    intros H. inversion H; subst d.
    destruct (fetch_details_spec service _ _ _ _ Hd) as [Hlen _].
    cbn [List.length] in Hlen, Hall. lia.
Qed.

(** The capped service under a bound of 2. *)
Lemma X24_fetch_respects_max_results_witness :
  (Z.of_nat (List.length [mk_message "m1" [hdr "From" "a@x.com"];
                          mk_message "m2" [hdr "From" "a@x.com"]])
   <= Z.max 0 2)%Z.
Proof.
  apply (X24_fetch_respects_max_results capped_service "is:unread" 2).
  - intros [|n] r resp ms Hcall Hms; cbn [capped_service messages_list] in Hcall;
      [|discriminate].
    destruct (req_max_results r <? 0)%Z eqn:E; [discriminate|].
    apply Z.ltb_ge in E.
    inversion Hcall; subst resp. cbn [resp_messages] in Hms.
    inversion Hms; subst ms.
    rewrite length_firstn. cbn [List.length]. lia.
  - vm_compute. reflexivity.
Defined.

(** X25.  With [max_results] at most 0 no list request is sent, and a fetch
    that returns a list returns the empty list. *)
Theorem X25_no_budget_no_call (service : Service) (query : string)
        (max_results : Z) :
  (max_results <= 0)%Z ->
  snd (fetch_unread_emails service query max_results) = [] /\
  forall detailed_messages,
    fst (fetch_unread_emails service query max_results)
    = Fetched detailed_messages ->
    detailed_messages = [].
Proof.
  intros H. unfold fetch_unread_emails, fetch_with_fuel.
  replace (Z.to_nat max_results) with 0 by lia. cbn [list_loop].
  assert (E : (0 <? max_results)%Z = false) by (apply Z.ltb_ge; lia).
  rewrite E. cbn [fst snd]. split; [reflexivity|].
  intros d Hd. now inversion Hd.
Qed.

(** The sample service under a bound of 0. *)
Lemma X25_no_budget_no_call_witness :
  snd (fetch_unread_emails sample_service "is:unread" 0) = [].
Proof.
  apply (X25_no_budget_no_call sample_service "is:unread" 0). lia.
Defined.

(** X5.  A fetch that returns a list returns exactly the answers of the
    detail calls that succeeded, one for each listed id whose call
    succeeded, in listing order: a failed detail call leaves out its own
    message and nothing else; and every listed entry had an id. *)
Theorem X5_detail_failures_are_skipped (service : Service) (query : string)
        (max_results : Z) (all_messages : list message_info)
        (detailed_messages : list message) :
  fst (list_loop service query max_results (Z.to_nat max_results) 0 [] None 0%Z)
  = Listed all_messages ->
  fst (fetch_unread_emails service query max_results)
  = Fetched detailed_messages ->
  detailed_messages = successful_details service 0 all_messages /\
  Forall (fun info => info_id info <> None) all_messages.
Proof.
  intros Hlist. unfold fetch_unread_emails, fetch_with_fuel. cbn [fst].
  rewrite Hlist. destruct all_messages as [|info all].
  - intros H. inversion H; subst. split; [reflexivity | constructor].
  - destruct (fetch_details service 0 (info :: all) []) as [d|] eqn:Hd;
      [|discriminate].
    intros H. inversion H; subst d.
    exact (fetch_details_exact service (info :: all) 0 [] _ Hd).
Qed.

(** The sample service: four ids, the details of the second cannot be
    fetched. *)
Lemma X5_detail_failures_are_skipped_witness :
  [mk_message "m1" [hdr "From" "a@x.com"];
   mk_message "m3" [hdr "From" "a@x.com"];
   mk_message "m4" [hdr "From" "a@x.com"]]
  = successful_details sample_service 0
      [{| info_id := Some "m1" |}; {| info_id := Some "m2" |};
       {| info_id := Some "m3" |}; {| info_id := Some "m4" |}].
Proof.
  apply (X5_detail_failures_are_skipped sample_service "is:unread" 500
           [{| info_id := Some "m1" |}; {| info_id := Some "m2" |};
            {| info_id := Some "m3" |}; {| info_id := Some "m4" |}]);
    vm_compute; reflexivity.
Defined.

(** ** The grouper: when it returns, and the order of the messages *)

Section OrderFacts.

Variable lib : Lib.



Lemma all_read_of_returns (messages : list message) (out : groups_t)
      (log : list warning) :
  group_emails lib messages = Ok (out, log) ->
  forall m, In m messages -> exists l, read_headers lib m = Ok l.
Proof.
  intros Hout m Hm. destruct (read_headers lib m) as [l|e] eqn:Hread;
    [now exists l|].
  destruct (group_all_raises lib messages m Hm (ex_intro _ e Hread)) as [e' He'].
  rewrite He' in Hout. discriminate.
Qed.





End OrderFacts.

(** X14.  The grouper swallows no exception of the header loop: whenever it
    returns, the header loop of every input message has completed. *)
Theorem X14_returns_only_if_headers_read (lib : Lib) (messages : list message)
        (out : groups_t) (log : list warning) (m : message) :
  group_emails lib messages = Ok (out, log) ->
  In m messages ->
  exists l, read_headers lib m = Ok l.
Proof.
  intros Hout Hm. exact (all_read_of_returns lib _ _ _ Hout m Hm).
Qed.

(** The sample run at its fourth message. *)
Lemma X14_returns_only_if_headers_read_witness :
  exists l,
    read_headers sample_lib
      (mk_message "m4" [hdr "From" "Ann <ann@example.com>";
                        hdr "List-Unsubscribe" "<mailto:u@example.com>"])
    = Ok l.
Proof.
  apply (X14_returns_only_if_headers_read sample_lib ex_messages ex_groups ex_log).
  - vm_compute. reflexivity.
  - do 3 right. now left.
Defined.



(** ** The ranker: ranking twice *)

Section IdempotenceFacts.

Context {A K : Type}.
Variable ltb : K -> K -> bool.
Variable key : A -> K.

Lemma sort_stable_of_sorted (l : list A) :
  StronglySorted (not_after ltb key) l -> sort_stable ltb key l = l.
Proof.
  induction 1 as [|x l Hl IH Hx]; [reflexivity|].
  cbn [sort_stable]. rewrite IH.
  destruct l as [|y l]; [reflexivity|]. cbn [insert_stable].
  inversion Hx as [|? ? Hxy _]; subst. unfold not_after in Hxy.
  now rewrite Hxy.
Qed.

Lemma sorted_reverse_of_sorted (l : list A) :
  StronglySorted (fun a b => ltb (key a) (key b) = false) l ->
  sorted ltb key l true = l.
Proof.
  intros H. unfold sorted.
  rewrite sort_stable_of_sorted; [apply rev_involutive|].
  apply (StronglySorted_rev (fun a b => ltb (key a) (key b) = false)), H.
Qed.

End IdempotenceFacts.

(** X17.  Ranking is idempotent: ranking the ranked entries again, by the
    same criterion, leaves them as they are. *)
Theorem X17_sort_groups_idempotent (groups : groups_t) (criteria : string) :
  fst (sort_groups (fst (sort_groups groups criteria)) criteria)
  = fst (sort_groups groups criteria).
Proof.
  unfold sort_groups.
  destruct (String.eqb criteria "count"); [|destruct (String.eqb criteria "date")];
    cbn [fst]; apply sorted_reverse_of_sorted; apply sorted_reverse_sorted.
  - intros a b H. apply count_date_ltb_spec in H.
    apply count_date_ltb_false. lia.
  - intros a b c H1 H2. apply count_date_ltb_false in H1, H2.
    apply count_date_ltb_false. lia.
  - intros a b H. apply date_count_ltb_spec in H.
    apply date_count_ltb_false. lia.
  - intros a b c H1 H2. apply date_count_ltb_false in H1, H2.
    apply date_count_ltb_false. lia.
  - intros a b H. apply count_date_ltb_spec in H.
    apply count_date_ltb_false. lia.
  - intros a b c H1 H2. apply count_date_ltb_false in H1, H2.
    apply count_date_ltb_false. lia.
Qed.
